(** * TrajectoryRK4Elegant: a projectile under altitude-dependent gravity,
      integrated with the classical fourth-order Runge-Kutta scheme.

    The program ([main.cpp]) computes with C++ [double].  It is embedded
    once, over an arithmetic interface [Arith], and read in two ways:

    - [Binary64]: IEEE 754 binary64 with round-to-nearest-even, through the
      kernel's primitive floats.  Every operator of the source is one
      correctly rounded operation (no fused multiply-add, no wider
      intermediate format).  This reading is executable, and it is the one
      in which the program is run on concrete inputs.
    - [Exact]: the same expressions over the real numbers, with no rounding.
      A quotient by 0 is 0 there (the convention of the standard library);
      a statement that needs a quotient says that its denominator is not 0.

    A sentence of the specification about the values the program returns
    (equal, unchanged, greater, for every input) is settled in [Binary64],
    the arithmetic the program runs in.  The [Exact] reading is stated
    beside it: it says which real-number formula the rounded operations
    approximate, and there a formula denotes one number whatever the
    grouping of its sums.  That a rounded sum, product or quotient never
    reverses the order of its operands is proved from the standard library's
    specification of the binary64 operations ([SpecFloat]), in integers.

    What is outside the repository is a parameter: [strtod], [sin] and [cos]
    of the C library are arguments of the functions that call them, and the
    standard input is the list of the outcomes of the extractions made from
    it.  The loop of [main] takes fuel, since it need not terminate.  Of the
    output, the dialogue of the prompt loops is the list of the lines they
    print; the records of the loop are the values printed, not their
    decimal rendering, which is the C++ library's.

    Definitions keep the names of the source.  The two C++ overloads of
    [evaluate] become [evaluate] (one argument) and [evaluateAt] (three
    arguments); the fields [vertVel] and [horzVel] of [Derivative] become
    [d_vertVel] and [d_horzVel]. *)

From Stdlib Require Import ZArith List Bool String Lia.
From Stdlib Require Import Floats.
From Stdlib Require Import Reals Lra.
Import ListNotations.

Set Warnings "-inexact-float".

(** ** The arithmetic of [double] *)

(** The operations the source applies to doubles.  [x > y] is [ltb y x] and
    [x >= y] is [leb y x].  [dec m k] is the decimal literal [m * 10^-k]:
    [6371000.0] is [dec 63710000 1].  The one law is what makes a number
    below [y] fail the test [>= y]. *)
Class Arith (D : Type) : Type := {
  add : D -> D -> D;
  mul : D -> D -> D;
  div : D -> D -> D;
  ltb : D -> D -> bool;
  leb : D -> D -> bool;
  dec : Z -> nat -> D;
  ltb_not_geb : forall x y, ltb x y = true -> leb y x = false
}.

Declare Scope num_scope.
Delimit Scope num_scope with num.
Infix "+" := add : num_scope.
Infix "*" := mul : num_scope.
Infix "/" := div : num_scope.
Infix "<?" := ltb : num_scope.
Infix "<=?" := leb : num_scope.
Notation "x >? y" := (ltb y x) (only parsing) : num_scope.
Notation "x >=? y" := (leb y x) (only parsing) : num_scope.

(** *** Binary64 *)

(** An integer as an unrounded binary float with exponent 0. *)
Definition Z2SF (z : Z) : spec_float :=
  match z with
  | Z0 => S754_zero false
  | Zpos p => S754_finite false p 0
  | Zneg p => S754_finite true p 0
  end.

(** The binary64 number nearest to [m * 10^-k]: one correctly rounded division
    of the two integers, which is how a compiler reads a decimal literal. *)
Definition float_dec (m : Z) (k : nat) : float :=
  SF2Prim (SFdiv prec emax (Z2SF m) (Z2SF (10 ^ Z.of_nat k))).

(** A zero or a nonzero finite number: neither infinite nor NaN. *)
Definition SFfinite (X : spec_float) : Prop :=
  match X with
  | S754_zero _ | S754_finite _ _ _ => True
  | S754_infinity _ | S754_nan => False
  end.

(** A zero of either sign. *)
Definition SFzero (X : spec_float) : Prop :=
  match X with
  | S754_zero _ => True
  | _ => False
  end.

(** [x'] is the number [x]: the two compare equal, and they are the same
    double unless [x] is a zero (whose sign may differ). *)
Definition unchanged (x' x : float) : Prop :=
  PrimFloat.eqb x' x = true /\ (is_zero x = false -> x' = x).

Lemma SFcompare_Lt_Gt (x y : spec_float) :
  SFcompare x y = Some Lt -> SFcompare y x = Some Gt.
Proof.
  destruct x as [sx | sx | | sx mx ex], y as [sy | sy | | sy my ey];
    simpl; try discriminate;
    try (destruct sx; discriminate || reflexivity);
    try (destruct sy; discriminate || reflexivity);
    try (destruct sx, sy; discriminate || reflexivity).
  change (Pos.compare_cont Eq my mx) with (my ?= mx)%positive.
  change (Pos.compare_cont Eq mx my) with (mx ?= my)%positive.
  rewrite (Z.compare_antisym ex ey), (Pos.compare_antisym mx my).
  destruct sx, sy; try discriminate; try reflexivity;
    destruct (ex ?= ey)%Z; simpl; try discriminate; try reflexivity;
    destruct (mx ?= my)%positive; simpl; discriminate || reflexivity.
Qed.

Lemma float_ltb_not_geb (x y : float) :
  PrimFloat.ltb x y = true -> PrimFloat.leb y x = false.
Proof.
  rewrite ltb_spec, leb_spec. unfold SFltb, SFleb.
  destruct (SFcompare (Prim2SF x) (Prim2SF y)) as [[ | | ] | ] eqn:E;
    try discriminate.
  intros _. now rewrite (SFcompare_Lt_Gt _ _ E).
Qed.

#[export] Instance Binary64 : Arith float := {|
  add := PrimFloat.add;
  mul := PrimFloat.mul;
  div := PrimFloat.div;
  ltb := PrimFloat.ltb;
  leb := PrimFloat.leb;
  dec := float_dec;
  ltb_not_geb := float_ltb_not_geb
|}.

(** *** Exact real arithmetic *)

Definition R_ltb (x y : R) : bool := if Rlt_dec x y then true else false.
Definition R_leb (x y : R) : bool := if Rle_dec x y then true else false.
Definition R_dec (m : Z) (k : nat) : R := (IZR m / IZR (10 ^ Z.of_nat k))%R.

Lemma R_ltb_not_geb (x y : R) : R_ltb x y = true -> R_leb y x = false.
Proof.
  unfold R_ltb, R_leb.
  destruct (Rlt_dec x y) as [Hlt | Hge]; [intros _ | discriminate].
  destruct (Rle_dec y x) as [Hle | _]; [lra | reflexivity].
Qed.

#[export] Instance Exact : Arith R := {|
  add := Rplus;
  mul := Rmult;
  div := Rdiv;
  ltb := R_ltb;
  leb := R_leb;
  dec := R_dec;
  ltb_not_geb := R_ltb_not_geb
|}.

(** ** The program *)

(** [struct State] (lines 35-41): position and velocity of the projectile. *)
Record State (D : Type) : Type := mkState {
  vertPos : D;
  horzPos : D;
  vertVel : D;
  horzVel : D
}.

(** [struct Derivative] (lines 43-49): velocity and acceleration. *)
Record Derivative (D : Type) : Type := mkDerivative {
  d_vertVel : D;
  d_horzVel : D;
  vertAcc : D;
  horzAcc : D
}.

Arguments mkState {D} _ _ _ _.
Arguments vertPos {D} _.
Arguments horzPos {D} _.
Arguments vertVel {D} _.
Arguments horzVel {D} _.
Arguments mkDerivative {D} _ _ _ _.
Arguments d_vertVel {D} _.
Arguments d_horzVel {D} _.
Arguments vertAcc {D} _.
Arguments horzAcc {D} _.

(** The five locals of [main] that hold its parameters (lines 60-64). *)
Record Params (D : Type) : Type := mkParams {
  initAlt : D;
  initVel : D;
  firingAngle : D;
  deltaTime : D;
  finalTime : D
}.

Arguments mkParams {D} _ _ _ _ _.
Arguments initAlt {D} _.
Arguments initVel {D} _.
Arguments firingAngle {D} _.
Arguments deltaTime {D} _.
Arguments finalTime {D} _.

(** The outcome of one [cin >> x] on a stream in good state: a number was
    read, or the extraction failed and set [failbit]. *)
Inductive Extraction (D : Type) : Type :=
| Parsed (v : D)
| Failed.

Arguments Parsed {D} v.
Arguments Failed {D}.

Section Program.

Context {D : Type} {A : Arith D}.
Local Open Scope num_scope.

(** *** Constants (lines 29-33) *)

Definition g : D := dec (-980665) 5.                   (* -9.80665 *)
Definition re : D := dec 63710000 1.                   (* 6371000.0 *)
Definition a : D := dec 0 1.                           (* 0.0 *)
Definition pi : D := dec 314159265358979323846 20.     (* 3.14159265358979323846 *)
Definition deg2rad : D := pi / dec 1800 1.             (* pi / 180.0 *)

(** *** The physics model (lines 166-180) *)

Definition computeVertAcc (state : State D) : D :=
  g * (re / (re + vertPos state)) * (re / (re + vertPos state)).

Definition computeHorzAcc (state : State D) : D := a.

(** *** The derivative at a state (lines 182-190) *)

Definition evaluate (p : State D) : Derivative D :=
  {| d_vertVel := vertVel p;
     vertAcc := computeVertAcc p;
     d_horzVel := horzVel p;
     horzAcc := computeHorzAcc p |}.

(** *** The derivative at an intermediate state (lines 192-212) *)

Definition evaluateAt (initP : State D) (deltaTime : D) (pPrime : Derivative D)
  : Derivative D :=
  let p :=
    {| vertPos := vertPos initP + d_vertVel pPrime * deltaTime;
       vertVel := vertVel initP + vertAcc pPrime * deltaTime;
       horzPos := horzPos initP + d_horzVel pPrime * deltaTime;
       horzVel := horzVel initP + horzAcc pPrime * deltaTime |} in
  {| d_vertVel := vertVel p;
     vertAcc := computeVertAcc p;
     d_horzVel := horzVel p;
     horzAcc := computeHorzAcc p |}.

(** *** One integration step (lines 214-236) *)

(** The source updates [state] in place; here the new state is returned. *)
Definition rk4 (state : State D) (deltaTime : D) : State D :=
  let k1 := evaluate state in
  let k2 := evaluateAt state (deltaTime / dec 2 0) k1 in
  let k3 := evaluateAt state (deltaTime / dec 2 0) k2 in
  let k4 := evaluateAt state deltaTime k3 in
  let deltaVertVel :=
    (d_vertVel k1 + dec 2 0 * (d_vertVel k2 + d_vertVel k3) + d_vertVel k4)
    / dec 6 0 in
  let deltaVertAcc :=
    (vertAcc k1 + dec 2 0 * (vertAcc k2 + vertAcc k3) + vertAcc k4)
    / dec 6 0 in
  let deltaHorzVel :=
    (d_horzVel k1 + dec 2 0 * (d_horzVel k2 + d_horzVel k3) + d_horzVel k4)
    / dec 6 0 in
  let deltaHorzAcc :=
    (horzAcc k1 + dec 2 0 * (horzAcc k2 + horzAcc k3) + horzAcc k4)
    / dec 6 0 in
  {| vertPos := vertPos state + deltaVertVel * deltaTime;
     vertVel := vertVel state + deltaVertAcc * deltaTime;
     horzPos := horzPos state + deltaHorzVel * deltaTime;
     horzVel := horzVel state + deltaHorzAcc * deltaTime |}.

(** The locals of [rk4], named so that statements can speak of them: the four
    stage derivatives [k1] to [k4] (lines 217-220), and the four averages
    [deltaVertVel], [deltaVertAcc], [deltaHorzVel] and [deltaHorzAcc]
    (lines 222-229) as the fields of one [Derivative]. *)
Definition rk4Stages (state : State D) (deltaTime : D)
  : Derivative D * Derivative D * Derivative D * Derivative D :=
  let k1 := evaluate state in
  let k2 := evaluateAt state (deltaTime / dec 2 0) k1 in
  let k3 := evaluateAt state (deltaTime / dec 2 0) k2 in
  let k4 := evaluateAt state deltaTime k3 in
  (k1, k2, k3, k4).

Definition rk4Deltas (state : State D) (deltaTime : D) : Derivative D :=
  let '(k1, k2, k3, k4) := rk4Stages state deltaTime in
  {| d_vertVel :=
       (d_vertVel k1 + dec 2 0 * (d_vertVel k2 + d_vertVel k3) + d_vertVel k4)
       / dec 6 0;
     vertAcc :=
       (vertAcc k1 + dec 2 0 * (vertAcc k2 + vertAcc k3) + vertAcc k4)
       / dec 6 0;
     d_horzVel :=
       (d_horzVel k1 + dec 2 0 * (d_horzVel k2 + d_horzVel k3) + d_horzVel k4)
       / dec 6 0;
     horzAcc :=
       (horzAcc k1 + dec 2 0 * (horzAcc k2 + horzAcc k3) + horzAcc k4)
       / dec 6 0 |}.

(** *** Input acquisition (lines 66-133) *)

(** [cin >> x; while (cin.fail() || bad x) { clear; ignore; prompt; cin >> x; }]
    over the outcomes of the successive extractions.  A failed extraction and
    a rejected number both lead to the next extraction; the loop is left with
    the first number that is read and not rejected.  [None]: the outcomes
    given run out before that (the program is still prompting). *)
Fixpoint prompt (bad : D -> bool) (cin : list (Extraction D))
  : option (D * list (Extraction D)) :=
  match cin with
  | [] => None
  | Failed :: rest => prompt bad rest
  | Parsed v :: rest => if bad v then prompt bad rest else Some (v, rest)
  end.

(** The range checks of the five prompt loops (lines 73, 84, 95, 106, 117). *)
Definition noCheck (x : D) : bool := false.
Definition badAngle (x : D) : bool := (x <? dec 0 1) || (x >? dec 900 1).
Definition badTime (x : D) : bool := x <? dec 0 0.

(** The five prompts, in the order of the source: altitude, angle, velocity,
    time step, final time (lines 71-124). *)
Definition interactive (cin : list (Extraction D)) : option (Params D) :=
  match prompt noCheck cin with
  | None => None
  | Some (alt, cin1) =>
    match prompt badAngle cin1 with
    | None => None
    | Some (angle, cin2) =>
      match prompt noCheck cin2 with
      | None => None
      | Some (vel, cin3) =>
        match prompt badTime cin3 with
        | None => None
        | Some (dt, cin4) =>
          match prompt badTime cin4 with
          | None => None
          | Some (tf, _) => Some (mkParams alt vel angle dt tf)
          end
        end
      end
    end
  end.

(** [argc == 6]: the five arguments go through [strtod] and are used as they
    come (lines 126-133).  [strtod] is the C library's and is total: an
    argument that is no number reads as 0. *)
Definition positional (strtod : string -> D) (argv : list string) : Params D :=
  mkParams (strtod (nth 1 argv EmptyString))
           (strtod (nth 2 argv EmptyString))
           (strtod (nth 3 argv EmptyString))
           (strtod (nth 4 argv EmptyString))
           (strtod (nth 5 argv EmptyString)).

(** The branch on [argc] (line 66); [argc] is the length of [argv]. *)
Definition acquire (strtod : string -> D) (argv : list string)
  (cin : list (Extraction D)) : option (Params D) :=
  if Nat.eqb (List.length argv) 6 then Some (positional strtod argv)
  else interactive cin.

(** *** The initial state (lines 135-141) *)

(** [sin] and [cos] are the C library's. *)
Definition initialState (sin cos : D -> D) (q : Params D) : State D :=
  let firingAngle := firingAngle q * deg2rad in
  {| vertPos := initAlt q;
     vertVel := initVel q * sin firingAngle;
     horzPos := dec 0 1;
     horzVel := initVel q * cos firingAngle |}.

(** *** The driving loop (lines 143-159) *)

(** The variables of the loop: [currentTime] and [p]. *)
Definition Config : Type := (D * State D)%type.

Definition loopCond (finalTime : D) (c : Config) : bool :=
  (fst c <? finalTime) && (vertPos (snd c) >=? dec 0 1).

Definition loopBody (deltaTime : D) (c : Config) : Config :=
  (fst c + deltaTime, rk4 (snd c) deltaTime).

(** The loop, for at most [fuel] iterations.  The result lists the variables
    after each call of [rk4]: the records the iterations print. *)
Fixpoint drive (fuel : nat) (deltaTime finalTime : D) (c : Config)
  : list Config :=
  match fuel with
  | O => []
  | S n =>
    if loopCond finalTime c
    then let c' := loopBody deltaTime c in c' :: drive n deltaTime finalTime c'
    else []
  end.

(** [main] from the acquired parameters on. *)
Definition simulate (sin cos : D -> D) (fuel : nat) (q : Params D)
  : list Config :=
  drive fuel (deltaTime q) (finalTime q) (dec 0 1, initialState sin cos q).

(** [main]: the printed records, or [None] while it is still prompting. *)
Definition main (strtod : string -> D) (sin cos : D -> D) (fuel : nat)
  (argv : list string) (cin : list (Extraction D)) : option (list Config) :=
  match acquire strtod argv cin with
  | None => None
  | Some q => Some (simulate sin cos fuel q)
  end.

End Program.

(** ** Definitions that follow the words of the specification *)

Section Specification.

Context {D : Type} {A : Arith D}.
Local Open Scope num_scope.

(** "advancing [baseState] using Euler's method with [priorDerivative] over
    interval [dt] (pos' = pos + vel*dt, vel' = vel + acc*dt for both axes)". *)
Definition eulerAdvance (baseState : State D) (dt : D)
  (priorDerivative : Derivative D) : State D :=
  {| vertPos := vertPos baseState + d_vertVel priorDerivative * dt;
     horzPos := horzPos baseState + d_horzVel priorDerivative * dt;
     vertVel := vertVel baseState + vertAcc priorDerivative * dt;
     horzVel := horzVel baseState + horzAcc priorDerivative * dt |}.

(** "combine as (k1 + 2*k2 + 2*k3 + k4) / 6". *)
Definition weightedAverage (k1 k2 k3 k4 : D) : D :=
  (k1 + dec 2 0 * k2 + dec 2 0 * k3 + k4) / dec 6 0.

(** The same average with the sum grouped as the source groups it. *)
Definition groupedAverage (k1 k2 k3 k4 : D) : D :=
  (k1 + dec 2 0 * (k2 + k3) + k4) / dec 6 0.

(** Steps 1 to 6 of the operation Step of the specification, for a given way
    [average] of combining the four stage values of a component. *)
Definition StepWith (average : D -> D -> D -> D -> D)
  (state : State D) (dt : D) : State D :=
  let k1 := evaluate state in
  let k2 := evaluateAt state (dt / dec 2 0) k1 in
  let k3 := evaluateAt state (dt / dec 2 0) k2 in
  let k4 := evaluateAt state dt k3 in
  let avgVertVel :=
    average (d_vertVel k1) (d_vertVel k2) (d_vertVel k3) (d_vertVel k4) in
  let avgVertAcc :=
    average (vertAcc k1) (vertAcc k2) (vertAcc k3) (vertAcc k4) in
  let avgHorzVel :=
    average (d_horzVel k1) (d_horzVel k2) (d_horzVel k3) (d_horzVel k4) in
  let avgHorzAcc :=
    average (horzAcc k1) (horzAcc k2) (horzAcc k3) (horzAcc k4) in
  {| vertPos := vertPos state + avgVertVel * dt;
     horzPos := horzPos state + avgHorzVel * dt;
     vertVel := vertVel state + avgVertAcc * dt;
     horzVel := horzVel state + avgHorzAcc * dt |}.

(** The operation Step, with the average as the specification writes it. *)
Definition Step (state : State D) (dt : D) : State D :=
  StepWith weightedAverage state dt.

(** The variables of the driving loop after [n] executions of its body,
    whatever the loop condition says. *)
Fixpoint iterBody (deltaTime : D) (n : nat) (c : Config) : Config :=
  match n with
  | O => c
  | S m => iterBody deltaTime m (loopBody deltaTime c)
  end.

End Specification.

(** The scenario of the specification: altitude 0, velocity 100 m/s, angle
    45 degrees, time step 0.01 s; the final time is left open. *)
Definition scenario (tf : R) : Params R := mkParams 0%R 100%R 45%R 0.01%R tf.

(** The state after the first call of [rk4] in [main], in exact arithmetic
    with the sine and cosine of the real numbers. *)
Definition afterOneStep (q : Params R) : State R :=
  rk4 (initialState sin cos q) (deltaTime q).

(** The firing angle of the scenario in radians: [45 * deg2rad]. *)
Definition angle45 : R := 0.785398163397448309615%R.

(** [x] is [y] up to the relative error [tol]. *)
Definition approx (tol x y : R) : Prop := (Rabs (x - y) <= tol * Rabs y)%R.

(** ** The dialogue of a prompt loop *)

Section Dialogue.

Context {D : Type}.

(** An extraction after which a prompt loop asks again: it failed, or the
    number it read does not pass the check of the loop. *)
Definition rejected (bad : D -> bool) (e : Extraction D) : bool :=
  match e with
  | Failed => true
  | Parsed v => bad v
  end.

(** The line every prompt loop prints before it asks again (lines 77, 88, 99,
    110 and 121). *)
Definition errorLine : string := "Error - Invalid input.".

(** The lines a prompt loop prints: [cout << label << endl] before the first
    extraction, and [cout << "Error - Invalid input." << endl] followed by
    [cout << label << endl] in every iteration of the [while]
    (lines 71-80, 82-91, 93-102, 104-113 and 115-124, each with its own
    [label]).  With no outcome left the loop is waiting for input after its
    last [label]. *)
Fixpoint promptOutput (label : string) (bad : D -> bool)
  (cin : list (Extraction D)) : list string :=
  label ::
  match cin with
  | [] => []
  | e :: rest =>
    if rejected bad e then errorLine :: promptOutput label bad rest else []
  end.

End Dialogue.

(** ** Classes of binary64 numbers *)

(** [X] is a zero, an infinity or a nonzero finite number of sign [s]
    ([true]: the sign bit is set). *)
Definition SFsigned (s : bool) (X : spec_float) : Prop :=
  match X with
  | S754_zero s' | S754_infinity s' | S754_finite s' _ _ => s' = s
  | S754_nan => False
  end.

(** The zero with the sign bit set, [-0.0]. *)
Definition negzero (x : float) : bool :=
  match Prim2SF x with
  | S754_zero true => true
  | _ => false
  end.

(** Neither NaN nor [-0.0]: a number that adding a zero leaves as it is. *)
Definition ordinary (x : float) : bool :=
  negb (is_nan x) && negb (negzero x).

(** ** Binary64: what one rounded operation computes *)

(** The definitions of this part say, in integers, what the rounding of
    [SpecFloat.binary_round_aux] computes; the lemmas further down prove that
    it does, and that it is monotone. *)

Section RoundingSpecification.

Local Open Scope Z_scope.

(** The floor of [A / B] with a sticky bit: twice the floor, plus one when
    the quotient is not an integer. *)
Definition sf (A B : Z) : Z := 2 * (A / B) + (if A mod B =? 0 then 0 else 1).

(** A shift record (mantissa, round bit, sticky bit) as one integer. *)
Definition enc (mrs : shr_record) : Z :=
  4 * shr_m mrs + (if shr_r mrs then 2 else 0) + (if shr_s mrs then 1 else 0).

(** The location of a value between two mantissas as the two low bits of the
    encoded record. *)
Definition code (l : location) : Z :=
  match l with
  | loc_Exact => 0
  | loc_Inexact Lt => 1
  | loc_Inexact Eq => 2
  | loc_Inexact Gt => 3
  end.

(** Rounding to nearest, ties to even, of an encoded record. *)
Definition rne (X : Z) : Z :=
  let m := X / 4 in
  let c := X mod 4 in
  if c <? 2 then m
  else if c =? 2 then (if Z.even m then m else m + 1)
  else m + 1.

(** An exponent below those of all the operands and results of binary64: the
    values [(A / B) * 2 ^ fine] with integers [A] and [B] cover the sums,
    products and quotients of two doubles. *)
Definition fine : Z := -2200.

(** The rounded mantissa and the exponent of the value [(A / B) * 2 ^ fine],
    before a mantissa of [2 ^ 53] is renormalised. *)
Definition RndV (A B : Z) : Z * Z :=
  let E := fexp prec emax (Zdigits2 (A / B) + fine) in
  (rne (sf (2 * A) (B * 2 ^ (E - fine))), E).

(** The mantissa [2 ^ 53] becomes [2 ^ 52] with the next exponent. *)
Definition norm (p : Z * Z) : Z * Z :=
  if fst p =? 2 ^ 53 then (2 ^ 52, snd p + 1) else p.

(** The number with mantissa and exponent [p] and sign [s]: a zero, a finite
    number, or an infinity when the exponent is above that of the largest
    double. *)
Definition pack (s : bool) (p : Z * Z) : spec_float :=
  match fst p with
  | Z0 => S754_zero s
  | Zpos m =>
    if snd p <=? 971 then S754_finite s m (snd p) else S754_infinity s
  | Zneg _ => S754_nan
  end.

(** The double nearest to [(A / B) * 2 ^ fine], ties to even, with sign
    [s]. *)
Definition Round (s : bool) (A B : Z) : spec_float := pack s (norm (RndV A B)).

(** The second half of [SpecFloat.binary_round_aux], after the mantissa has
    been rounded. *)
Definition finish (s : bool) (m1 E : Z) : spec_float :=
  let '(mrs'', e'') := shr_fexp prec emax m1 E loc_Exact in
  match shr_m mrs'' with
  | Z0 => S754_zero s
  | Zpos m =>
    if e'' <=? emax - prec then S754_finite s m e'' else S754_infinity s
  | Zneg _ => S754_nan
  end.

(** The magnitude of a finite number in units of [2 ^ fine], and its signed
    value. *)
Definition mag (X : spec_float) : Z :=
  match X with
  | S754_finite _ m e => Zpos m * 2 ^ (e - fine)
  | _ => 0
  end.

Definition sv (X : spec_float) : Z :=
  match X with
  | S754_finite s m e =>
    if s then - (Zpos m * 2 ^ (e - fine)) else Zpos m * 2 ^ (e - fine)
  | _ => 0
  end.

End RoundingSpecification.

(** ** Properties that hold in every arithmetic *)

Section Generic.

Context {D : Type} {A : Arith D}.
Local Open Scope num_scope.

(** *** The locals of [rk4] *)

Lemma rk4_deltas (state : State D) (deltaTime : D) :
  rk4 state deltaTime
  = {| vertPos := vertPos state + d_vertVel (rk4Deltas state deltaTime) * deltaTime;
       vertVel := vertVel state + vertAcc (rk4Deltas state deltaTime) * deltaTime;
       horzPos := horzPos state + d_horzVel (rk4Deltas state deltaTime) * deltaTime;
       horzVel := horzVel state + horzAcc (rk4Deltas state deltaTime) * deltaTime |}.
Proof. reflexivity. Qed.

(** The horizontal acceleration of every stage is the constant [a]. *)
Lemma rk4Stages_horzAcc (state : State D) (deltaTime : D) :
  let '(k1, k2, k3, k4) := rk4Stages state deltaTime in
  horzAcc k1 = a /\ horzAcc k2 = a /\ horzAcc k3 = a /\ horzAcc k4 = a.
Proof. unfold rk4Stages. cbn. repeat split. Qed.

Lemma rk4Deltas_horzAcc (state : State D) (deltaTime : D) :
  horzAcc (rk4Deltas state deltaTime)
  = (a + dec 2 0 * (a + a) + a) / dec 6 0.
Proof. reflexivity. Qed.

(** In every arithmetic [rk4] is Step with the average grouped as in the
    source. *)
Lemma rk4_StepWith_grouped (state : State D) (deltaTime : D) :
  rk4 state deltaTime = StepWith groupedAverage state deltaTime.
Proof. reflexivity. Qed.

(** *** The intermediate-stage derivative *)

Lemma evaluateAt_eulerAdvance
  (baseState : State D) (dt : D) (d : Derivative D) :
  evaluateAt baseState dt d = evaluate (eulerAdvance baseState dt d).
Proof.
  unfold evaluateAt, evaluate, eulerAdvance, computeVertAcc, computeHorzAcc.
  cbn [vertPos horzPos vertVel horzVel]. reflexivity.
Qed.

(** *** The driving loop *)

Section Loop.

Variables deltaTime finalTime : D.

(** The record printed by iteration [i] is the result of [i + 1] executions
    of the body. *)
Lemma drive_nth (fuel : nat) (c d : Config) (i : nat) :
  (i < List.length (drive fuel deltaTime finalTime c))%nat ->
  nth i (drive fuel deltaTime finalTime c) d = iterBody deltaTime (S i) c.
Proof.
  revert c i. induction fuel as [ | fuel IH]; intros c i; simpl; [lia | ].
  destruct (loopCond finalTime c); simpl; [ | lia].
  destruct i as [ | i]; [reflexivity | ].
  intros Hi. apply IH. lia.
Qed.

Lemma drive_iterBody (fuel : nat) (c : Config) :
  drive fuel deltaTime finalTime c
  = map (fun i => iterBody deltaTime (S i) c)
        (seq 0 (List.length (drive fuel deltaTime finalTime c))).
Proof.
  apply (nth_ext _ _ c (iterBody deltaTime 1 c)).
  - now rewrite length_map, length_seq.
  - intros i Hi. rewrite (drive_nth _ _ _ _ Hi).
    rewrite (map_nth (fun i => iterBody deltaTime (S i) c) _ 0%nat i).
    now rewrite seq_nth.
Qed.

(** Every call of [rk4] is made with the condition true. *)
Lemma drive_cond_before (fuel : nat) (c : Config) (i : nat) :
  (i < List.length (drive fuel deltaTime finalTime c))%nat ->
  loopCond finalTime (iterBody deltaTime i c) = true.
Proof.
  revert c i. induction fuel as [ | fuel IH]; intros c i; simpl; [lia | ].
  destruct (loopCond finalTime c) eqn:E; simpl; [ | lia].
  destruct i as [ | i]; [intros _; exact E | ].
  intros Hi. simpl. apply IH. lia.
Qed.

(** When the loop is left within the fuel, the condition is false. *)
Lemma drive_cond_after (fuel : nat) (c : Config) :
  (List.length (drive fuel deltaTime finalTime c) < fuel)%nat ->
  loopCond finalTime
    (iterBody deltaTime (List.length (drive fuel deltaTime finalTime c)) c)
  = false.
Proof.
  revert c. induction fuel as [ | fuel IH]; intros c; simpl; [lia | ].
  destruct (loopCond finalTime c) eqn:E; simpl; [ | intros _; exact E].
  intros Hlt. apply IH. lia.
Qed.

(** When the loop is left within the fuel, more fuel changes nothing. *)
Lemma drive_fuel_enough (fuel fuel' : nat) (c : Config) :
  (List.length (drive fuel deltaTime finalTime c) < fuel)%nat ->
  (fuel <= fuel')%nat ->
  drive fuel' deltaTime finalTime c = drive fuel deltaTime finalTime c.
Proof.
  revert fuel' c. induction fuel as [ | fuel IH]; intros fuel' c; simpl; [lia | ].
  destruct fuel' as [ | fuel']; [lia | ]. simpl.
  destruct (loopCond finalTime c); simpl; [ | reflexivity].
  intros Hlt Hle. f_equal. apply IH; lia.
Qed.

(** The condition is false as soon as the elapsed time is not below
    [finalTime], or [vertPos] is below zero. *)
Lemma loopCond_false (c : Config) :
  (fst c <? finalTime) = false \/ (vertPos (snd c) <? dec 0 1) = true ->
  loopCond finalTime c = false.
Proof.
  unfold loopCond. intros [Ht | Hneg].
  - now rewrite Ht.
  - rewrite (ltb_not_geb _ _ Hneg). apply andb_false_r.
Qed.

End Loop.

(** *** Input acquisition *)

(** A prompt loop is left only with a number that its check accepts. *)
Lemma prompt_accepts (bad : D -> bool) (cin rest : list (Extraction D)) (v : D) :
  prompt bad cin = Some (v, rest) -> bad v = false.
Proof.
  induction cin as [ | [x | ] cin IH]; simpl; [discriminate | | exact IH].
  destruct (bad x) eqn:E; [exact IH | ].
  intros H. injection H as -> _. exact E.
Qed.

(** The prompting path delivers an angle that is neither below 0 nor above
    90, and a time step and a final time that are not below 0. *)
Lemma interactive_checked (cin : list (Extraction D)) (q : Params D) :
  interactive cin = Some q ->
  badAngle (firingAngle q) = false
  /\ badTime (deltaTime q) = false
  /\ badTime (finalTime q) = false.
Proof.
  unfold interactive.
  destruct (prompt noCheck cin) as [[alt c1] | ]; [ | discriminate].
  destruct (prompt badAngle c1) as [[angle c2] | ] eqn:Eangle; [ | discriminate].
  destruct (prompt noCheck c2) as [[vel c3] | ]; [ | discriminate].
  destruct (prompt badTime c3) as [[dt c4] | ] eqn:Edt; [ | discriminate].
  destruct (prompt badTime c4) as [[tf c5] | ] eqn:Etf; [ | discriminate].
  intros H. injection H as <-. cbn [firingAngle deltaTime finalTime].
  repeat split; eapply prompt_accepts; eassumption.
Qed.

(** The positional path applies no check: whatever [strtod] reads from the
    third argument is the firing angle. *)
Lemma positional_unchecked (strtod : string -> D) (argv : list string)
  (cin : list (Extraction D)) :
  List.length argv = 6%nat ->
  acquire strtod argv cin = Some (positional strtod argv)
  /\ firingAngle (positional strtod argv) = strtod (nth 3 argv EmptyString).
Proof.
  intros H. unfold acquire. rewrite H. split; reflexivity.
Qed.

End Generic.

(** ** Binary64: facts about the primitive operations *)

Section Binary64Arithmetic.

Local Open Scope float_scope.

Lemma SFcompare_refl (X : spec_float) :
  X <> S754_nan -> SFcompare X X = Some Eq.
Proof.
  destruct X as [s | s | | s m e]; simpl; intros H; try reflexivity.
  - now destruct s.
  - now elim H.
  - change (PosDef.Pos.compare_cont Eq m m) with (m ?= m)%positive.
    rewrite Z.compare_refl, Pos.compare_refl. now destruct s.
Qed.

Lemma is_nan_false (x : float) :
  is_nan x = false -> Prim2SF x <> S754_nan.
Proof.
  unfold is_nan. rewrite eqb_spec. unfold SFeqb.
  intros H E. rewrite E in H. discriminate.
Qed.

Lemma is_finite_true (x : float) :
  is_finite x = true -> SFfinite (Prim2SF x).
Proof.
  unfold is_finite, is_nan, is_infinity. rewrite !eqb_spec, abs_spec.
  change (Prim2SF infinity) with (S754_infinity false).
  destruct (Prim2SF x) as [s | s | | s m e]; simpl; try exact (fun _ => I).
  - destruct s; cbv; discriminate.
  - discriminate.
Qed.

(** A finite number times a zero is a zero. *)
Lemma mul_finite_zero (x z : float) :
  is_finite x = true -> SFzero (Prim2SF z) -> SFzero (Prim2SF (x * z)).
Proof.
  intros Hx Hz. apply is_finite_true in Hx. rewrite mul_spec.
  unfold SF64mul.
  destruct (Prim2SF x) as [sx | sx | | sx mx ex],
           (Prim2SF z) as [sz | sz | | sz mz ez];
    simpl in *; tauto.
Qed.

Lemma mul_zero_finite (z x : float) :
  SFzero (Prim2SF z) -> is_finite x = true -> SFzero (Prim2SF (z * x)).
Proof.
  intros Hz Hx. apply is_finite_true in Hx. rewrite mul_spec.
  unfold SF64mul.
  destruct (Prim2SF x) as [sx | sx | | sx mx ex],
           (Prim2SF z) as [sz | sz | | sz mz ez];
    simpl in *; tauto.
Qed.

Lemma is_zero_false (x : float) :
  is_zero x = false -> ~ SFzero (Prim2SF x).
Proof.
  unfold is_zero. rewrite eqb_spec.
  change (Prim2SF zero) with (S754_zero false).
  destruct (Prim2SF x) as [s | s | | s m e]; simpl; try tauto.
  discriminate.
Qed.

(** Adding a zero to a number that is not NaN leaves the number unchanged. *)
Lemma add_zero_unchanged (x z : float) :
  is_nan x = false -> SFzero (Prim2SF z) -> unchanged (x + z) x.
Proof.
  intros Hx Hz. apply is_nan_false in Hx. split.
  - rewrite eqb_spec, add_spec. unfold SF64add.
    destruct (Prim2SF z) as [sz | sz | | sz mz ez]; simpl in Hz; try tauto.
    destruct (Prim2SF x) as [sx | sx | | sx mx ex] eqn:E.
    + destruct sx, sz; reflexivity.
    + destruct sx; reflexivity.
    + now elim Hx.
    + unfold SFadd, SFeqb. now rewrite SFcompare_refl.
  - intros Hnz. apply is_zero_false in Hnz.
    apply Prim2SF_inj. rewrite add_spec. unfold SF64add.
    destruct (Prim2SF z) as [sz | sz | | sz mz ez]; simpl in Hz; try tauto.
    destruct (Prim2SF x) as [sx | sx | | sx mx ex]; simpl in *;
      try tauto; reflexivity.
Qed.

End Binary64Arithmetic.

(** ** Binary64: rounding never produces NaN *)
(** The significand that reaches the rounding function is never negative,
    and NaN is what it returns for a negative one only. *)

Section Binary64NotNaN.
Local Open Scope Z_scope.

Lemma shr_1_nonneg (mrs : shr_record) :
  0 <= shr_m mrs -> 0 <= shr_m (shr_1 mrs).
Proof.
  destruct mrs as [m r s]. simpl.
  destruct m as [ | p | p]; [intros _; simpl; lia | | lia].
  intros _. destruct p; simpl; lia.
Qed.

Lemma iter_shr_1_nonneg (n : positive) (mrs : shr_record) :
  0 <= shr_m mrs -> 0 <= shr_m (SpecFloat.iter_pos shr_1 n mrs).
Proof.
  revert mrs. induction n as [n IH | n IH | ]; intros mrs H; simpl.
  - apply IH, IH, shr_1_nonneg, H.
  - apply IH, IH, H.
  - apply shr_1_nonneg, H.
Qed.

Lemma shr_fexp_nonneg (m e : Z) (l : location) :
  0 <= m -> 0 <= shr_m (fst (shr_fexp prec emax m e l)).
Proof.
  intros H. unfold shr_fexp, shr.
  assert (H0 : 0 <= shr_m (shr_record_of_loc m l)).
  { destruct l as [ | [ | | ]]; exact H. }
  destruct (fexp prec emax (Zdigits2 m + e) - e) as [ | n | n]; simpl;
    [exact H0 | | exact H0].
  apply iter_shr_1_nonneg, H0.
Qed.

Lemma round_nearest_even_nonneg (m : Z) (l : location) :
  0 <= m -> 0 <= round_nearest_even m l.
Proof.
  intros H. destruct l as [ | [ | | ]]; simpl; try lia.
  destruct (Z.even m); lia.
Qed.

Lemma binary_round_aux_not_nan (sx : bool) (mx ex : Z) (lx : location) :
  0 <= mx -> binary_round_aux prec emax sx mx ex lx <> S754_nan.
Proof.
  intros H. unfold binary_round_aux.
  pose proof (shr_fexp_nonneg mx ex lx H) as H1.
  destruct (shr_fexp prec emax mx ex lx) as [mrs' e']. simpl in H1.
  pose proof (round_nearest_even_nonneg _ (loc_of_shr_record mrs') H1) as H2.
  pose proof (shr_fexp_nonneg _ e' loc_Exact H2) as H3.
  destruct (shr_fexp prec emax _ e' loc_Exact) as [mrs'' e'']. simpl in H3.
  destruct (shr_m mrs'') as [ | m | m]; [discriminate | | lia].
  destruct (e'' <=? emax - prec); discriminate.
Qed.

Lemma binary_normalize_not_nan (m e : Z) (szero : bool) :
  binary_normalize prec emax m e szero <> S754_nan.
Proof.
  unfold binary_normalize, binary_round.
  destruct m as [ | p | p]; [discriminate | | ];
    destruct (shl_align p e _) as [mz ez];
    apply binary_round_aux_not_nan; lia.
Qed.

(** *** The operations on numbers that are not NaN *)

Lemma SFadd_not_nan (X Y : spec_float) :
  SFfinite X -> SFfinite Y -> SFadd prec emax X Y <> S754_nan.
Proof.
  destruct X as [sx | sx | | sx mx ex], Y as [sy | sy | | sy my ey];
    simpl; try tauto; intros _ _; try discriminate.
  - destruct sx, sy; discriminate.
  - apply binary_normalize_not_nan.
Qed.

Lemma SFmul_finite_r_not_nan (X : spec_float) (sy : bool) (my : positive) (ey : Z) :
  X <> S754_nan -> SFmul prec emax X (S754_finite sy my ey) <> S754_nan.
Proof.
  destruct X as [sx | sx | | sx mx ex]; simpl; try tauto; intros _;
    try discriminate.
  apply binary_round_aux_not_nan. lia.
Qed.

Lemma SFdiv_core_binary_nonneg (m1 m2 : positive) (e1 e2 : Z) :
  0 <= fst (fst (SFdiv_core_binary prec emax (Zpos m1) e1 (Zpos m2) e2)).
Proof.
  unfold SFdiv_core_binary.
  set (s := _ - _ - Z.min _ _).
  set (m' := match s with Z0 => Zpos m1 | Zpos _ => Z.shiftl (Zpos m1) s | Zneg _ => 0 end).
  assert (Hm' : 0 <= m').
  { unfold m'. destruct s; try lia. apply Z.shiftl_nonneg. lia. }
  pose proof (Z_div_mod m' (Zpos m2) ltac:(lia)) as H.
  destruct (Z.div_eucl m' (Zpos m2)) as [q r]. simpl. nia.
Qed.

Lemma SFdiv_finite_l_not_nan (sx : bool) (mx : positive) (ex : Z) (Y : spec_float) :
  Y <> S754_nan -> SFdiv prec emax (S754_finite sx mx ex) Y <> S754_nan.
Proof.
  destruct Y as [sy | sy | | sy my ey]; simpl; try tauto; intros _;
    try discriminate.
  pose proof (SFdiv_core_binary_nonneg mx my ex ey) as H.
  destruct (SFdiv_core_binary prec emax (Zpos mx) ex (Zpos my) ey) as [[mz ez] lz].
  simpl in H. now apply binary_round_aux_not_nan.
Qed.

(** The square of the quotient [q] times a nonzero finite number is not NaN
    when [q] is not: a zero [q] gives a zero, an infinite [q] an infinity. *)
Lemma SFmul_mul_not_nan (sg : bool) (mg : positive) (eg : Z) (Q : spec_float) :
  Q <> S754_nan ->
  SFmul prec emax (SFmul prec emax (S754_finite sg mg eg) Q) Q <> S754_nan.
Proof.
  intros HQ. destruct Q as [sq | sq | | sq mq eq]; simpl; try tauto;
    try discriminate.
  apply (SFmul_finite_r_not_nan _ sq mq eq).
  apply binary_round_aux_not_nan. lia.
Qed.

End Binary64NotNaN.

(** ** Binary64: the program *)

Section Binary64Program.

Local Open Scope float_scope.

(** The literals of the source are the binary64 numbers nearest to them. *)
Lemma binary64_constants :
  (g : float) = -9.80665 /\ (re : float) = 6371000 /\ (a : float) = 0
  /\ (pi : float) = 3.14159265358979323846
  /\ (deg2rad : float) = 3.14159265358979323846 / 180
  /\ (dec 2 0 : float) = 2 /\ (dec 6 0 : float) = 6
  /\ (dec 0 0 : float) = 0 /\ (dec 0 1 : float) = 0 /\ (dec 900 1 : float) = 90.
Proof. repeat split; vm_compute; reflexivity. Qed.

(** The average of the four horizontal accelerations is [+0]. *)
Lemma binary64_deltaHorzAcc (state : State float) (deltaTime : float) :
  horzAcc (rk4Deltas state deltaTime) = 0.
Proof. rewrite rk4Deltas_horzAcc. vm_compute. reflexivity. Qed.

(** With a finite time step [rk4] leaves the horizontal velocity unchanged. *)
Lemma binary64_rk4_horzVel (state : State float) (deltaTime : float) :
  is_finite deltaTime = true ->
  is_nan (horzVel state) = false ->
  unchanged (horzVel (rk4 state deltaTime)) (horzVel state).
Proof.
  intros Hdt Hv. rewrite rk4_deltas. cbn [horzVel].
  rewrite binary64_deltaHorzAcc.
  apply add_zero_unchanged; [exact Hv | ].
  apply mul_zero_finite; [exact I | exact Hdt].
Qed.

(** With a zero time step and finite averages [rk4] leaves every field
    unchanged. *)
Lemma binary64_rk4_zero_dt (state : State float) :
  is_nan (vertPos state) = false ->
  is_nan (horzPos state) = false ->
  is_nan (vertVel state) = false ->
  is_nan (horzVel state) = false ->
  is_finite (d_vertVel (rk4Deltas state 0)) = true ->
  is_finite (vertAcc (rk4Deltas state 0)) = true ->
  is_finite (d_horzVel (rk4Deltas state 0)) = true ->
  unchanged (vertPos (rk4 state 0)) (vertPos state)
  /\ unchanged (horzPos (rk4 state 0)) (horzPos state)
  /\ unchanged (vertVel (rk4 state 0)) (vertVel state)
  /\ unchanged (horzVel (rk4 state 0)) (horzVel state).
Proof.
  intros Nvp Nhp Nvv Nhv Fvv Fva Fhv.
  rewrite rk4_deltas. cbn [vertPos horzPos vertVel horzVel].
  assert (Fha : is_finite (horzAcc (rk4Deltas state 0)) = true)
    by (rewrite binary64_deltaHorzAcc; reflexivity).
  repeat apply conj; apply add_zero_unchanged; try assumption;
    apply mul_finite_zero; try assumption; exact I.
Qed.

(** At sea level the vertical acceleration is [g] itself. *)
Example binary64_sea_level : computeVertAcc (mkState 0 0 0 0) = (g : float).
Proof. vm_compute. reflexivity. Qed.

(** Gravity at 1000 m is weaker than at sea level. *)
Example binary64_gravity_sample :
  computeVertAcc (mkState 1000 0 0 0) = -9.8035721969589282
  /\ (abs (computeVertAcc (mkState 1000 0 0 0))
      <? abs (computeVertAcc (mkState 0 0 0 0))) = true.
Proof. vm_compute. split; reflexivity. Qed.

(** One step from 1000 m up, at 30 m/s upwards and 40 m/s forwards. *)
Example binary64_rk4_sample :
  rk4 (mkState 1000 5 30 40) 0.01
  = {| vertPos := 1000.2995098214055;
       horzPos := 5.4000000000000004;
       vertVel := 29.901964282641;
       horzVel := 40 |}.
Proof. vm_compute. reflexivity. Qed.

(** A launch from the ground at 1 m/s upwards and forwards, with time step
    0.1 s: the third record is below the ground and is the last. *)
Example binary64_drive_sample :
  map (fun c => (fst c, vertPos (snd c))) (drive 100 0.1 10 (0, mkState 0 0 1 1))
  = [(0.1, 0.050966750387296089);
     (0.2, 0.0038670020920339998);
     (0.30000000000000004, -0.14129924633576507)].
Proof. vm_compute. reflexivity. Qed.

(** Three failed or rejected extractions before an accepted angle. *)
Example binary64_prompt_sample :
  prompt badAngle [Failed; Parsed 120; Parsed (-5); Parsed 45; Parsed 7]
  = Some (45, [Parsed 7]).
Proof. vm_compute. reflexivity. Qed.

(** The first step of the scenario of the specification, when the C library
    returns the doubles nearest to the sine and the cosine of the angle. *)
Lemma binary64_scenario_step (sin cos : float -> float) (tf : float) :
  sin (45 * deg2rad) = 0.7071067811865475 ->
  cos (45 * deg2rad) = 0.7071067811865476 ->
  let p0 := initialState sin cos (mkParams 0 100 45 0.01 tf) in
  rk4 p0 0.01
  = {| vertPos := 0.7066164487228157;
       horzPos := 0.70710678118654757;
       vertVel := 70.612611629533944;
       horzVel := 70.710678118654755 |}.
Proof.
  intros Hs Hc p0. subst p0. unfold initialState.
  cbn [initAlt initVel firingAngle mul Binary64].
  rewrite Hs, Hc. vm_compute. reflexivity.
Qed.

(** [computeVertAcc] never returns NaN at a finite altitude: the sum
    [re + h] is not NaN, a finite [re] divided by it is not NaN (at
    [h = -re] it is an infinity), and the two products keep a zero a zero
    and an infinity an infinity. *)
Lemma binary64_computeVertAcc_not_nan (state : State float) :
  is_finite (vertPos state) = true -> is_nan (computeVertAcc state) = false.
Proof.
  intros Hh. apply is_finite_true in Hh.
  assert (H : Prim2SF (computeVertAcc state) <> S754_nan).
  { unfold computeVertAcc. cbn [add mul div Binary64].
    rewrite !mul_spec, !div_spec, !add_spec.
    unfold SF64mul, SF64div, SF64add.
    assert (Hre : exists m e, Prim2SF re = S754_finite false m e)
      by (vm_compute; eauto).
    assert (Hg : exists m e, Prim2SF g = S754_finite true m e)
      by (vm_compute; eauto).
    destruct Hre as (mr & er & Hre), Hg as (mg & eg & Hg).
    rewrite Hre, Hg.
    apply SFmul_mul_not_nan, SFdiv_finite_l_not_nan, SFadd_not_nan;
      [exact I | exact Hh]. }
  unfold is_nan. rewrite eqb_spec. unfold SFeqb.
  rewrite SFcompare_refl by exact H. reflexivity.
Qed.

End Binary64Program.

(** ** Exact arithmetic: the program *)

Section ExactProgram.

Local Open Scope R_scope.

Lemma exact_constants :
  (g : R) = -9.80665 /\ (re : R) = 6371000 /\ (a : R) = 0
  /\ (pi : R) = 3.14159265358979323846
  /\ (deg2rad : R) = 3.14159265358979323846 / 180
  /\ (dec 2 0 : R) = 2 /\ (dec 6 0 : R) = 6
  /\ (dec 0 0 : R) = 0 /\ (dec 0 1 : R) = 0 /\ (dec 900 1 : R) = 90.
Proof.
  unfold g, re, a, deg2rad, pi. cbv [dec div Exact R_dec]. simpl Z.pow.
  repeat split; lra.
Qed.

Lemma exact_g : (g : R) = -9.80665.
Proof. apply exact_constants. Qed.

Lemma exact_re : (re : R) = 6371000.
Proof. apply exact_constants. Qed.

Lemma exact_a : (a : R) = 0.
Proof. apply exact_constants. Qed.

Lemma exact_two : (dec 2 0 : R) = 2.
Proof. apply exact_constants. Qed.

Lemma exact_six : (dec 6 0 : R) = 6.
Proof. apply exact_constants. Qed.

Lemma exact_zero : (dec 0 1 : R) = 0.
Proof. apply exact_constants. Qed.

(** The generic operations at [R] are the operations of [R]. *)
Ltac exact_ops :=
  cbn [add mul div Exact];
  rewrite ?exact_two, ?exact_six, ?exact_zero, ?exact_a.

Lemma exact_computeVertAcc (state : State R) :
  computeVertAcc state = g * (re / (re + vertPos state)) ^ 2.
Proof. unfold computeVertAcc. exact_ops. ring. Qed.

(** In exact arithmetic the grouping of the average does not matter. *)
Lemma exact_groupedAverage (k1 k2 k3 k4 : R) :
  groupedAverage k1 k2 k3 k4 = weightedAverage k1 k2 k3 k4.
Proof. unfold groupedAverage, weightedAverage. exact_ops. field. Qed.

Lemma exact_rk4_Step (state : State R) (dt : R) : rk4 state dt = Step state dt.
Proof.
  rewrite rk4_StepWith_grouped. unfold Step, StepWith.
  now rewrite !exact_groupedAverage.
Qed.

Lemma exact_rk4_zero_dt (state : State R) : rk4 state 0 = state.
Proof.
  destruct state as [y x vy vx]. rewrite rk4_deltas.
  cbn [vertPos horzPos vertVel horzVel]. exact_ops.
  f_equal; ring.
Qed.

(** All four stage horizontal velocities are the horizontal velocity of the
    state, and all four stage horizontal accelerations are 0. *)
Lemma exact_rk4Stages_horizontal (state : State R) (dt : R) :
  let '(k1, k2, k3, k4) := rk4Stages state dt in
  (d_horzVel k1 = horzVel state /\ d_horzVel k2 = horzVel state
   /\ d_horzVel k3 = horzVel state /\ d_horzVel k4 = horzVel state)
  /\ (horzAcc k1 = 0 /\ horzAcc k2 = 0 /\ horzAcc k3 = 0 /\ horzAcc k4 = 0).
Proof.
  unfold rk4Stages, evaluateAt, evaluate, computeHorzAcc.
  cbn [d_horzVel horzAcc horzVel]. exact_ops.
  repeat split; ring.
Qed.

Lemma exact_rk4_horizontal (state : State R) (dt : R) :
  horzVel (rk4 state dt) = horzVel state
  /\ horzPos (rk4 state dt) = horzPos state + horzVel state * dt.
Proof.
  unfold rk4, evaluateAt, evaluate, computeHorzAcc.
  cbn [d_horzVel horzAcc horzVel horzPos]. exact_ops.
  split; field.
Qed.

(** Above [-re] the denominator of the gravity term is positive, and the
    vertical acceleration is negative. *)
Lemma exact_computeVertAcc_neg (state : State R) :
  - re < vertPos state ->
  0 < re + vertPos state /\ computeVertAcc state < 0.
Proof.
  intros H. assert (Hd : 0 < re + vertPos state) by lra.
  split; [exact Hd | ].
  rewrite exact_computeVertAcc.
  assert (Hq : 0 < re / (re + vertPos state)).
  { apply Rdiv_lt_0_compat; [rewrite exact_re; lra | exact Hd]. }
  assert (Hq2 : 0 < (re / (re + vertPos state)) ^ 2) by (apply pow_lt; exact Hq).
  rewrite exact_g. set (w := (re / (re + vertPos state)) ^ 2) in *. lra.
Qed.

(** Gravity weakens with altitude. *)
Lemma exact_computeVertAcc_decreasing (s1 s2 : State R) :
  - re < vertPos s1 -> vertPos s1 < vertPos s2 ->
  Rabs (computeVertAcc s2) < Rabs (computeVertAcc s1).
Proof.
  intros H1 H12.
  destruct (exact_computeVertAcc_neg s1 H1) as [Hd1 Hn1].
  destruct (exact_computeVertAcc_neg s2 ltac:(lra)) as [Hd2 Hn2].
  rewrite !Rabs_left by assumption.
  rewrite !exact_computeVertAcc.
  assert (Hre : 0 < re) by (rewrite exact_re; lra).
  assert (Hq2 : 0 < re / (re + vertPos s2)) by (apply Rdiv_lt_0_compat; assumption).
  assert (Hq : re / (re + vertPos s2) < re / (re + vertPos s1)).
  { unfold Rdiv. apply Rmult_lt_compat_l; [exact Hre | ].
    apply Rinv_lt_contravar; [apply Rmult_lt_0_compat; assumption | lra]. }
  assert (Hsq : (re / (re + vertPos s2)) ^ 2 < (re / (re + vertPos s1)) ^ 2).
  { set (q1 := re / (re + vertPos s1)) in *.
    set (q2 := re / (re + vertPos s2)) in *. simpl. nra. }
  rewrite exact_g.
  set (w1 := (re / (re + vertPos s1)) ^ 2) in *.
  set (w2 := (re / (re + vertPos s2)) ^ 2) in *. lra.
Qed.

(** *** The scenario: altitude 0, velocity 100 m/s, angle 45 degrees *)

Lemma INR_fact_S (n : nat) : INR (fact (S n)) = INR (S n) * INR (fact n).
Proof. rewrite fact_simpl. apply mult_INR. Qed.

(** The partial sums of the sine and cosine series that enclose them. *)
Lemma sin_enclosure (x : R) :
  0 <= x <= PI ->
  x - x^3/6 + x^5/120 - x^7/5040 + x^9/362880 - x^11/39916800 <= sin x
  /\ sin x <= x - x^3/6 + x^5/120 - x^7/5040 + x^9/362880 - x^11/39916800
              + x^13/6227020800.
Proof.
  intros [H0 H1].
  pose proof (sin_bound x 2 H0 H1) as [Hl Hu].
  change (2 * 2 + 1)%nat with 5%nat in Hl.
  change (2 * (2 + 1))%nat with 6%nat in Hu.
  unfold sin_approx in Hl, Hu. simpl sum_f_R0 in Hl, Hu.
  unfold sin_term in Hl, Hu.
  simpl Nat.mul in Hl, Hu. simpl Nat.add in Hl, Hu.
  repeat rewrite INR_fact_S in Hl. repeat rewrite INR_fact_S in Hu.
  repeat rewrite INR_IZR_INZ in Hl. repeat rewrite INR_IZR_INZ in Hu.
  simpl Z.of_nat in Hl, Hu.
  change (IZR (Z.of_nat (fact 0))) with 1 in Hl, Hu.
  simpl pow in Hl, Hu. simpl pow. split; lra.
Qed.

Lemma cos_enclosure (x : R) :
  - PI / 2 <= x <= PI / 2 ->
  1 - x^2/2 + x^4/24 - x^6/720 + x^8/40320 - x^10/3628800 <= cos x
  /\ cos x <= 1 - x^2/2 + x^4/24 - x^6/720 + x^8/40320 - x^10/3628800
              + x^12/479001600.
Proof.
  intros [H0 H1].
  pose proof (cos_bound x 2 H0 H1) as [Hl Hu].
  change (2 * 2 + 1)%nat with 5%nat in Hl.
  change (2 * (2 + 1))%nat with 6%nat in Hu.
  unfold cos_approx in Hl, Hu. simpl sum_f_R0 in Hl, Hu.
  unfold cos_term in Hl, Hu.
  simpl Nat.mul in Hl, Hu.
  repeat rewrite INR_fact_S in Hl. repeat rewrite INR_fact_S in Hu.
  repeat rewrite INR_IZR_INZ in Hl. repeat rewrite INR_IZR_INZ in Hu.
  simpl Z.of_nat in Hl, Hu.
  change (IZR (Z.of_nat (fact 0))) with 1 in Hl, Hu.
  simpl pow in Hl, Hu. simpl pow. split; lra.
Qed.

(** The firing angle in radians, as [main] computes it from 45 degrees. *)
Lemma exact_angle45 : (45 * deg2rad : R) = angle45.
Proof.
  destruct exact_constants as (_ & _ & _ & _ & -> & _).
  unfold angle45. lra.
Qed.

Lemma sin_angle45 : 0.7071067811 <= sin angle45 <= 0.7071067812.
Proof.
  pose proof PI2_3_2 as HPI.
  assert (Hr : 0 <= angle45 <= PI) by (unfold angle45; lra).
  destruct (sin_enclosure angle45 Hr) as [Hl Hu].
  unfold angle45 in *. simpl pow in Hl, Hu. split; lra.
Qed.

Lemma cos_angle45 : 0.7071067810 <= cos angle45 <= 0.7071067812.
Proof.
  pose proof PI2_3_2 as HPI.
  assert (Hr : - PI / 2 <= angle45 <= PI / 2) by (unfold angle45; lra).
  destruct (cos_enclosure angle45 Hr) as [Hl Hu].
  unfold angle45 in *. simpl pow in Hl, Hu. split; lra.
Qed.

(** Between the ground and one metre above it the vertical acceleration lies
    between [g] and [0.9999996 * g]. *)
Lemma exact_computeVertAcc_band (state : State R) :
  0 <= vertPos state <= 1 ->
  g <= computeVertAcc state <= 0.9999996 * g.
Proof.
  intros [H0 H1]. rewrite exact_computeVertAcc, exact_g, exact_re.
  set (q := 6371000 / (6371000 + vertPos state)).
  assert (Hd : 0 < 6371000 + vertPos state) by lra.
  assert (Hq1 : q <= 1).
  { unfold q. apply (Rmult_le_reg_r (6371000 + vertPos state)); [exact Hd | ].
    unfold Rdiv. rewrite Rmult_assoc, Rinv_l by lra. lra. }
  assert (Hq0 : 0.9999998 <= q).
  { unfold q. apply (Rmult_le_reg_r (6371000 + vertPos state)); [exact Hd | ].
    unfold Rdiv. rewrite Rmult_assoc, Rinv_l by lra. lra. }
  simpl pow. nra.
Qed.

(** One intermediate stage of the first step of the scenario: the stage is
    evaluated at most one metre above the ground. *)
Lemma exact_stage_band (p0 : State R) (h : R) (k : Derivative R) :
  vertPos p0 = 0 -> 70 <= vertVel p0 <= 71 ->
  0 <= h <= 0.01 ->
  60 <= d_vertVel k <= 80 -> -10 <= vertAcc k <= 0 ->
  (g <= vertAcc (evaluateAt p0 h k) <= 0.9999996 * g)
  /\ 60 <= d_vertVel (evaluateAt p0 h k) <= 80.
Proof.
  intros Hy Hv Hh Hkv Hka.
  rewrite evaluateAt_eulerAdvance. unfold evaluate.
  cbn [vertAcc d_vertVel].
  assert (Pa : -0.1 <= vertAcc k * h <= 0).
  { pose proof (Rmult_le_pos (vertAcc k + 10) h ltac:(lra) ltac:(lra)).
    pose proof (Rmult_le_pos (- vertAcc k) h ltac:(lra) ltac:(lra)). lra. }
  assert (Pv : 0 <= d_vertVel k * h <= 0.8).
  { pose proof (Rmult_le_pos (d_vertVel k) h ltac:(lra) ltac:(lra)).
    pose proof (Rmult_le_pos (80 - d_vertVel k) h ltac:(lra) ltac:(lra)). lra. }
  split.
  - apply exact_computeVertAcc_band.
    unfold eulerAdvance. cbn [vertPos]. exact_ops. rewrite Hy. lra.
  - unfold eulerAdvance. cbn [vertVel]. exact_ops. lra.
Qed.

(** The average vertical acceleration of the first step of the scenario. *)
Lemma exact_scenario_deltaVertAcc (p0 : State R) :
  vertPos p0 = 0 -> 70 <= vertVel p0 <= 71 ->
  g <= vertAcc (rk4Deltas p0 0.01) <= 0.9999996 * g.
Proof.
  intros Hy Hv. pose proof exact_g as Hg.
  unfold rk4Deltas, rk4Stages.
  set (k1 := evaluate p0).
  assert (B1 : (g <= vertAcc k1 <= 0.9999996 * g) /\ 60 <= d_vertVel k1 <= 80).
  { unfold k1, evaluate. cbn [vertAcc d_vertVel]. split; [ | lra].
    apply exact_computeVertAcc_band. lra. }
  destruct B1 as [A1 V1].
  assert (Hhalf : 0.01 / 2 = 0.005) by lra.
  exact_ops. rewrite Hhalf.
  set (k2 := evaluateAt p0 0.005 k1).
  destruct (exact_stage_band p0 0.005 k1 Hy Hv ltac:(lra) V1 ltac:(lra))
    as [A2 V2]. fold k2 in A2, V2.
  set (k3 := evaluateAt p0 0.005 k2).
  destruct (exact_stage_band p0 0.005 k2 Hy Hv ltac:(lra) V2 ltac:(lra))
    as [A3 V3]. fold k3 in A3, V3.
  set (k4 := evaluateAt p0 0.01 k3).
  destruct (exact_stage_band p0 0.01 k3 Hy Hv ltac:(lra) V3 ltac:(lra))
    as [A4 V4]. fold k4 in A4, V4.
  cbn [vertAcc]. lra.
Qed.

Lemma approx_iff (tol x y : R) :
  0 < y -> (approx tol x y <-> y - tol * y <= x <= y + tol * y).
Proof.
  intros Hy. unfold approx. rewrite (Rabs_right y) by lra.
  unfold Rabs. destruct (Rcase_abs (x - y)); split; intros; lra.
Qed.

Lemma exact_scenario_start (tf : R) :
  let p0 := initialState sin cos (scenario tf) in
  vertPos p0 = 0 /\ horzPos p0 = 0
  /\ vertVel p0 = 100 * sin angle45 /\ horzVel p0 = 100 * cos angle45.
Proof.
  unfold initialState, scenario. cbn [initAlt initVel firingAngle].
  exact_ops. cbn [vertPos horzPos vertVel horzVel].
  rewrite exact_angle45. repeat split.
Qed.

(** With a positive final time, [afterOneStep] is the state of the first
    record that [main] prints. *)
Lemma exact_scenario_first_record (tf : R) :
  0 < tf ->
  map snd (simulate sin cos 1 (scenario tf)) = [afterOneStep (scenario tf)].
Proof.
  intros Htf. unfold simulate, afterOneStep, drive, loopCond.
  cbn [fst snd deltaTime finalTime scenario initialState vertPos initAlt].
  cbn [ltb leb Exact]. unfold R_ltb, R_leb.
  destruct exact_constants as (_ & _ & _ & _ & _ & _ & _ & _ & -> & _).
  destruct (Rlt_dec 0 tf) as [_ | N]; [ | contradiction].
  destruct (Rle_dec 0 0) as [_ | N]; [ | exfalso; lra].
  reflexivity.
Qed.

(** Enclosures of the state after the first step of the scenario. *)
Lemma exact_scenario_step (tf : R) :
  let p1 := afterOneStep (scenario tf) in
  70.6126116 <= vertVel p1 <= 70.6126117
  /\ 70.7106781 <= horzVel p1 <= 70.7106782
  /\ 0.707106781 <= horzPos p1 <= 0.707106782.
Proof.
  intros p1. subst p1. unfold afterOneStep.
  destruct (exact_scenario_start tf) as (Hy & Hx & Hvy & Hvx).
  set (p0 := initialState sin cos (scenario tf)) in *.
  change (deltaTime (scenario tf)) with 0.01.
  pose proof sin_angle45 as Hs. pose proof cos_angle45 as Hc.
  destruct (exact_rk4_horizontal p0 0.01) as [-> ->].
  rewrite Hx, Hvx.
  assert (Hv : 70 <= vertVel p0 <= 71) by (rewrite Hvy; lra).
  pose proof (exact_scenario_deltaVertAcc p0 Hy Hv) as Ha.
  rewrite exact_g in Ha.
  rewrite rk4_deltas. cbn [vertVel]. exact_ops. rewrite Hvy.
  repeat split; lra.
Qed.

End ExactProgram.

(** ** Further lemmas *)

(** *** Every arithmetic *)

Section GenericMore.

Context {D : Type} {A : Arith D}.
Local Open Scope num_scope.

(** A prompt loop goes past the extractions it rejects. *)
Lemma prompt_skips (bad : D -> bool) (pre rest : list (Extraction D)) :
  forallb (rejected bad) pre = true ->
  prompt bad (pre ++ rest) = prompt bad rest.
Proof.
  induction pre as [ | [x | ] pre IH]; simpl; [reflexivity | | exact IH].
  destruct (bad x); [exact IH | discriminate].
Qed.

(** Five numbers that pass the checks are taken by the five prompts in the
    order altitude, angle, velocity, time step, final time. *)
Lemma interactive_valid (x1 x2 x3 x4 x5 : D) (rest : list (Extraction D)) :
  badAngle x2 = false -> badTime x4 = false -> badTime x5 = false ->
  interactive
    (Parsed x1 :: Parsed x2 :: Parsed x3 :: Parsed x4 :: Parsed x5 :: rest)
  = Some {| initAlt := x1; firingAngle := x2; initVel := x3;
            deltaTime := x4; finalTime := x5 |}.
Proof.
  intros H2 H4 H5. unfold interactive, noCheck. simpl.
  rewrite H2. simpl. rewrite H4. simpl. now rewrite H5.
Qed.

(** One iteration of the loop. *)
Lemma drive_step (fuel : nat) (deltaTime finalTime : D) (c : Config) :
  loopCond finalTime c = true ->
  drive (S fuel) deltaTime finalTime c
  = loopBody deltaTime c
    :: drive fuel deltaTime finalTime (loopBody deltaTime c).
Proof. intros H. simpl. now rewrite H. Qed.

Lemma drive_stop (fuel : nat) (deltaTime finalTime : D) (c : Config) :
  loopCond finalTime c = false -> drive fuel deltaTime finalTime c = [].
Proof. intros H. destruct fuel; [reflexivity | ]. simpl. now rewrite H. Qed.

(** The vertical fields after a step depend on the vertical fields only. *)
Lemma rk4_steps_vertical (s s' : State D) (dt : D) :
  vertPos s = vertPos s' -> vertVel s = vertVel s' ->
  vertPos (rk4 s dt) = vertPos (rk4 s' dt)
  /\ vertVel (rk4 s dt) = vertVel (rk4 s' dt).
Proof.
  destruct s as [y x vy vx], s' as [y' x' vy' vx'].
  cbn [vertPos vertVel]. intros <- <-. split; reflexivity.
Qed.

(** A printed record is the result of some number of executions of the
    body, the last of them made with the condition true. *)
Lemma drive_In (deltaTime finalTime : D) (fuel : nat) (c r : Config) :
  In r (drive fuel deltaTime finalTime c) ->
  exists i, (i < List.length (drive fuel deltaTime finalTime c))%nat
            /\ r = iterBody deltaTime (S i) c
            /\ loopCond finalTime (iterBody deltaTime i c) = true.
Proof.
  intros H. destruct (In_nth _ _ c H) as (i & Hi & E).
  exists i. split; [exact Hi | ]. split.
  - now rewrite <- E, (drive_nth _ _ _ _ _ _ Hi).
  - now apply (drive_cond_before deltaTime finalTime fuel).
Qed.

End GenericMore.

(** *** Binary64: the sign of a rounded result *)

Section Binary64Sign.

Local Open Scope Z_scope.

(** Rounding keeps the sign it is given. *)
Lemma binary_round_aux_signed (sx : bool) (mx ex : Z) (lx : location) :
  0 <= mx -> SFsigned sx (binary_round_aux prec emax sx mx ex lx).
Proof.
  intros H. unfold binary_round_aux.
  pose proof (shr_fexp_nonneg mx ex lx H) as H1.
  destruct (shr_fexp prec emax mx ex lx) as [mrs' e']. simpl in H1.
  pose proof (round_nearest_even_nonneg _ (loc_of_shr_record mrs') H1) as H2.
  pose proof (shr_fexp_nonneg _ e' loc_Exact H2) as H3.
  destruct (shr_fexp prec emax _ e' loc_Exact) as [mrs'' e'']. simpl in H3.
  destruct (shr_m mrs'') as [ | m | m]; [reflexivity | | lia].
  destruct (e'' <=? emax - prec); reflexivity.
Qed.

Lemma SFsigned_not_nan (s : bool) (X : spec_float) :
  SFsigned s X -> X <> S754_nan.
Proof. intros H ->. exact H. Qed.

Lemma SFadd_finite_l_not_nan (sx : bool) (mx : positive) (ex : Z)
  (Y : spec_float) :
  Y <> S754_nan -> SFadd prec emax (S754_finite sx mx ex) Y <> S754_nan.
Proof.
  destruct Y as [sy | sy | | sy my ey]; simpl; try tauto; intros _;
    try discriminate.
  apply binary_normalize_not_nan.
Qed.

(** A product is NaN or has the product of the signs. *)
Lemma SFmul_signed (s t : bool) (X Y : spec_float) :
  SFsigned s X -> SFsigned t Y ->
  SFmul prec emax X Y = S754_nan \/ SFsigned (xorb s t) (SFmul prec emax X Y).
Proof.
  destruct X as [sx | sx | | sx mx ex], Y as [sy | sy | | sy my ey];
    simpl; try tauto; intros <- <-; try (right; reflexivity); try (now left).
  right. apply binary_round_aux_signed. lia.
Qed.

(** [g * q * q] has the sign of [g] whatever the sign of [q]. *)
Lemma SFmul_mul_signed (sg : bool) (mg : positive) (eg : Z) (Q : spec_float) :
  Q <> S754_nan ->
  SFsigned sg (SFmul prec emax (SFmul prec emax (S754_finite sg mg eg) Q) Q).
Proof.
  intros HQ.
  assert (Hs : exists sq, SFsigned sq Q).
  { destruct Q as [sq | sq | | sq mq eq]; try (now exists sq). now elim HQ. }
  destruct Hs as (sq & Hq).
  pose proof (SFmul_mul_not_nan sg mg eg Q HQ) as Hn.
  destruct (SFmul_signed sg sq (S754_finite sg mg eg) Q eq_refl Hq) as [E | H1].
  - rewrite E in Hn. now elim Hn.
  - destruct (SFmul_signed _ sq _ Q H1 Hq) as [E | H2]; [now elim Hn | ].
    replace (xorb (xorb sg sq) sq) with sg in H2 by (now destruct sg, sq).
    exact H2.
Qed.

End Binary64Sign.

(** *** Binary64: NaN, zeros and the relation [unchanged] *)

Section Binary64More.

Local Open Scope float_scope.

Lemma is_nan_true (x : float) : is_nan x = true -> Prim2SF x = S754_nan.
Proof.
  unfold is_nan. rewrite eqb_spec. unfold SFeqb. intros H.
  destruct (Prim2SF x) as [s | s | | s m e] eqn:E; [ | | reflexivity | ].
  all: rewrite SFcompare_refl in H by discriminate; discriminate.
Qed.

Lemma is_nan_iff (x : float) : is_nan x = true <-> Prim2SF x = S754_nan.
Proof.
  split; [apply is_nan_true | ].
  intros E. unfold is_nan. rewrite eqb_spec, E. reflexivity.
Qed.

Lemma is_nan_false_iff (x : float) : is_nan x = false <-> Prim2SF x <> S754_nan.
Proof.
  split; [apply is_nan_false | ].
  intros H. destruct (is_nan x) eqn:E; [ | reflexivity].
  now apply is_nan_true in E.
Qed.

(** There is one NaN. *)
Lemma is_nan_eq (x : float) : is_nan x = true -> x = nan.
Proof. intros H. apply Prim2SF_inj. now rewrite (is_nan_true x H). Qed.

Lemma add_nan_r (x : float) : x + nan = nan.
Proof.
  apply Prim2SF_inj. rewrite add_spec.
  change (Prim2SF nan) with S754_nan. unfold SF64add.
  now destruct (Prim2SF x).
Qed.

Lemma mul_nan_r (x : float) : x * nan = nan.
Proof.
  apply Prim2SF_inj. rewrite mul_spec.
  change (Prim2SF nan) with S754_nan. unfold SF64mul.
  now destruct (Prim2SF x).
Qed.

Lemma ltb_nan_l (x : float) : (nan <? x) = false.
Proof. rewrite ltb_spec. reflexivity. Qed.

Lemma ltb_nan_r (x : float) : (x <? nan) = false.
Proof.
  rewrite ltb_spec. change (Prim2SF nan) with S754_nan.
  unfold SFltb. now destruct (Prim2SF x).
Qed.

Lemma leb_nan_r (x : float) : (x <=? nan) = false.
Proof.
  rewrite leb_spec. change (Prim2SF nan) with S754_nan.
  unfold SFleb. now destruct (Prim2SF x).
Qed.

Lemma is_zero_true (x : float) : is_zero x = true -> SFzero (Prim2SF x).
Proof.
  unfold is_zero. rewrite eqb_spec.
  change (Prim2SF zero) with (S754_zero false).
  destruct (Prim2SF x) as [s | s | | s m e]; simpl; try discriminate.
  - intros _. exact I.
  - destruct s; discriminate.
  - destruct s; discriminate.
Qed.

Lemma is_infinity_true (x : float) :
  is_infinity x = true -> exists s, Prim2SF x = S754_infinity s.
Proof.
  unfold is_infinity. rewrite eqb_spec, abs_spec.
  change (Prim2SF infinity) with (S754_infinity false).
  destruct (Prim2SF x) as [s | s | | s m e]; simpl; try discriminate.
  intros _. now exists s.
Qed.

Lemma unchanged_not_nan (x' x : float) : unchanged x' x -> is_nan x' = false.
Proof.
  intros [E _]. apply is_nan_false_iff. intros H.
  rewrite eqb_spec, H in E. discriminate.
Qed.

Lemma unchanged_refl (x : float) : is_nan x = false -> unchanged x x.
Proof.
  intros H. apply is_nan_false in H. split; [ | reflexivity].
  rewrite eqb_spec. unfold SFeqb. now rewrite SFcompare_refl.
Qed.

Lemma unchanged_trans (x'' x' x : float) :
  unchanged x'' x' -> unchanged x' x -> unchanged x'' x.
Proof.
  intros [E2 Z2] [E1 Z1]. destruct (is_zero x) eqn:Ez.
  - split; [ | intros H; rewrite Ez in H; discriminate].
    apply is_zero_true in Ez.
    rewrite eqb_spec in E1, E2 |- *.
    destruct (Prim2SF x) as [s | s | | s m e]; simpl in Ez; try tauto.
    destruct (Prim2SF x') as [s' | s' | | s' m' e']; try discriminate;
      try (destruct s'; discriminate).
    destruct (Prim2SF x'') as [s'' | s'' | | s'' m'' e'']; try discriminate;
      try (destruct s''; discriminate).
    reflexivity.
  - rewrite (Z1 eq_refl) in *. split; [exact E2 | ].
    intros _. apply Z2. exact Ez.
Qed.

Lemma negzero_false (x : float) :
  negzero x = false -> Prim2SF x <> S754_zero true.
Proof. unfold negzero. intros H E. rewrite E in H. discriminate. Qed.

(** Adding a zero to an ordinary number gives the number itself. *)
Lemma add_zero_same (x z : float) :
  ordinary x = true -> SFzero (Prim2SF z) -> x + z = x.
Proof.
  unfold ordinary. rewrite andb_true_iff, !negb_true_iff.
  intros [Hn Hz] Hzero. apply is_nan_false in Hn. apply negzero_false in Hz.
  apply Prim2SF_inj. rewrite add_spec. unfold SF64add.
  destruct (Prim2SF z) as [sz | sz | | sz mz ez]; simpl in Hzero; try tauto.
  destruct (Prim2SF x) as [sx | sx | | sx mx ex]; simpl;
    try reflexivity; try (now elim Hn).
  destruct sx; [now elim Hz | ]. now destruct sz.
Qed.

(** *** Binary64: the program *)

(** [re] is a positive and [g] a negative finite number. *)
Lemma binary64_re_g :
  exists mr er mg eg,
    Prim2SF re = S754_finite false mr er /\ Prim2SF g = S754_finite true mg eg.
Proof. vm_compute. eauto 10. Qed.

(** The four operations of [computeVertAcc] (line 171). *)
Lemma binary64_computeVertAcc_SF (state : State float) :
  Prim2SF (computeVertAcc state)
  = SFmul prec emax
      (SFmul prec emax (Prim2SF g)
         (SFdiv prec emax (Prim2SF re)
            (SFadd prec emax (Prim2SF re) (Prim2SF (vertPos state)))))
      (SFdiv prec emax (Prim2SF re)
         (SFadd prec emax (Prim2SF re) (Prim2SF (vertPos state)))).
Proof.
  unfold computeVertAcc. cbn [add mul div Binary64].
  now rewrite !mul_spec, !div_spec, !add_spec.
Qed.

Lemma binary64_computeVertAcc_signed (state : State float) :
  is_nan (vertPos state) = false ->
  SFsigned true (Prim2SF (computeVertAcc state)).
Proof.
  intros H. apply is_nan_false in H. rewrite binary64_computeVertAcc_SF.
  destruct binary64_re_g as (mr & er & mg & eg & -> & ->).
  apply SFmul_mul_signed, SFdiv_finite_l_not_nan, SFadd_finite_l_not_nan, H.
Qed.

Lemma binary64_computeVertAcc_of_nan (state : State float) :
  is_nan (vertPos state) = true ->
  Prim2SF (computeVertAcc state) = S754_nan.
Proof.
  intros E. apply is_nan_true in E.
  rewrite binary64_computeVertAcc_SF, E.
  destruct binary64_re_g as (mr & er & mg & eg & -> & ->). reflexivity.
Qed.

(** With a finite time step the horizontal velocity after any number of
    executions of the loop body is the one before. *)
Lemma binary64_iterBody_horzVel (dt : float) (n : nat) (c : Config) :
  is_finite dt = true -> is_nan (horzVel (snd c)) = false ->
  unchanged (horzVel (snd (iterBody dt n c))) (horzVel (snd c)).
Proof.
  intros Hdt. revert c. induction n as [ | n IH]; intros c Hv.
  - now apply unchanged_refl.
  - change (iterBody dt (S n) c) with (iterBody dt n (loopBody dt c)).
    pose proof (binary64_rk4_horzVel (snd c) dt Hdt Hv) as H1.
    apply (unchanged_trans _ (horzVel (snd (loopBody dt c)))); [ | exact H1].
    apply IH. exact (unchanged_not_nan _ _ H1).
Qed.

(** A NaN elapsed time or a NaN altitude makes the loop condition false. *)
Lemma binary64_drive_nan (fuel : nat) (dt tf : float) (c : Config) :
  is_nan (vertPos (snd c)) = true \/ is_nan (fst c) = true ->
  drive fuel dt tf c = [].
Proof.
  intros H. apply drive_stop. unfold loopCond. cbn [ltb leb Binary64].
  destruct H as [H | H]; apply is_nan_eq in H; rewrite H.
  - now rewrite leb_nan_r, andb_false_r.
  - now rewrite ltb_nan_l.
Qed.

(** With a zero time step and finite averages [rk4] returns an ordinary
    state as it is. *)
Lemma binary64_rk4_zero_dt_same (state : State float) :
  ordinary (vertPos state) = true ->
  ordinary (horzPos state) = true ->
  ordinary (vertVel state) = true ->
  ordinary (horzVel state) = true ->
  is_finite (d_vertVel (rk4Deltas state 0)) = true ->
  is_finite (vertAcc (rk4Deltas state 0)) = true ->
  is_finite (d_horzVel (rk4Deltas state 0)) = true ->
  rk4 state 0 = state.
Proof.
  intros Ovp Ohp Ovv Ohv Fvv Fva Fhv.
  rewrite rk4_deltas. destruct state as [y x vy vx].
  cbn [vertPos horzPos vertVel horzVel] in *. cbn [add mul Binary64].
  assert (Fha : is_finite (horzAcc (rk4Deltas (mkState y x vy vx) 0)) = true)
    by (rewrite binary64_deltaHorzAcc; reflexivity).
  f_equal; apply add_zero_same; try assumption;
    apply mul_finite_zero; try assumption; exact I.
Qed.

End Binary64More.

(** *** Exact arithmetic *)

Section ExactMore.

Local Open Scope R_scope.

Lemma exact_ltb_false (x y : R) : ltb x y = false <-> y <= x.
Proof.
  cbn [ltb Exact]. unfold R_ltb. destruct (Rlt_dec x y); split; try easy; lra.
Qed.

Lemma exact_badAngle (x : R) : badAngle x = false <-> 0 <= x <= 90.
Proof.
  unfold badAngle. rewrite orb_false_iff, !exact_ltb_false.
  destruct exact_constants as (_ & _ & _ & _ & _ & _ & _ & _ & -> & ->). lra.
Qed.

Lemma exact_badTime (x : R) : badTime x = false <-> 0 <= x.
Proof.
  unfold badTime. rewrite exact_ltb_false.
  destruct exact_constants as (_ & _ & _ & _ & _ & _ & _ & -> & _). lra.
Qed.

End ExactMore.

(** *** Binary64: one rounded operation is monotone *)

(** [SpecFloat] defines the operations on mantissas and exponents.  This
    part proves that a sum, a product and a quotient of two valid numbers are
    [Round] of the exact value, and that [Round] is monotone in the value;
    so the three operations are monotone. *)

Section Binary64Rounding.

Local Open Scope Z_scope.

Lemma div_mono_frac (A1 B1 A2 B2 : Z) :
  0 < B1 -> 0 < B2 -> A1 * B2 <= A2 * B1 -> A1 / B1 <= A2 / B2.
Proof.
  intros H1 H2 H.
  apply Z.div_le_lower_bound; [exact H2 | ].
  pose proof (Z.mul_div_le A1 B1 H1) as Hq.
  assert (B1 * (B2 * (A1 / B1)) <= B1 * A2) by nia.
  nia.
Qed.

Lemma sf_mono (A1 B1 A2 B2 : Z) :
  0 < B1 -> 0 < B2 -> A1 * B2 <= A2 * B1 -> sf A1 B1 <= sf A2 B2.
Proof.
  intros H1 H2 H. unfold sf.
  pose proof (div_mono_frac A1 B1 A2 B2 H1 H2 H) as Hq.
  pose proof (Z.div_mod A1 B1 ltac:(lia)) as E1.
  pose proof (Z.div_mod A2 B2 ltac:(lia)) as E2.
  pose proof (Z.mod_pos_bound A1 B1 H1) as R1.
  pose proof (Z.mod_pos_bound A2 B2 H2) as R2.
  destruct (A1 mod B1 =? 0) eqn:Z1; destruct (A2 mod B2 =? 0) eqn:Z2;
    try lia.
  apply Z.eqb_neq in Z1. apply Z.eqb_eq in Z2.
  destruct (Z.eq_dec (A1 / B1) (A2 / B2)) as [Eq | Ne]; [exfalso | lia].
  rewrite Z2 in E2. nia.
Qed.

Lemma sf_ext (A1 B1 A2 B2 : Z) :
  0 < B1 -> 0 < B2 -> A1 * B2 = A2 * B1 -> sf A1 B1 = sf A2 B2.
Proof.
  intros H1 H2 H. apply Z.le_antisymm; apply sf_mono; lia.
Qed.

Lemma sf_nonneg (A B : Z) : 0 <= A -> 0 < B -> 0 <= sf A B.
Proof.
  intros HA HB. unfold sf. pose proof (Z.div_pos A B HA HB).
  destruct (A mod B =? 0); lia.
Qed.

Lemma sf_div4 (A B : Z) : 0 < B -> sf (2 * A) B / 4 = A / B.
Proof.
  intros HB. unfold sf.
  assert (E : 2 * A / B / 2 = A / B).
  { rewrite Z.div_div by lia. rewrite (Z.mul_comm B 2).
    apply Z.div_mul_cancel_l; lia. }
  rewrite <- E. set (q := 2 * A / B).
  destruct (_ =? 0); Z.div_mod_to_equations; lia.
Qed.

Lemma sf_sf4 (A B : Z) : 0 < B -> sf (sf A B) 4 = sf A (2 * B).
Proof.
  intros HB. unfold sf at 1 3.
  assert (Eq : A / (2 * B) = A / B / 2).
  { rewrite Z.div_div by lia. f_equal. lia. }
  assert (Em : (A mod (2 * B) =? 0) = ((A mod B =? 0) && (A / B mod 2 =? 0))).
  { rewrite (Z.mul_comm 2 B), Z.rem_mul_r by lia.
    pose proof (Z.mod_pos_bound A B HB).
    pose proof (Z.mod_pos_bound (A / B) 2 ltac:(lia)).
    destruct (Z.eqb_spec (A mod B) 0) as [E1 | E1];
      destruct (Z.eqb_spec (A / B mod 2) 0) as [E2 | E2]; simpl.
    - apply Z.eqb_eq. nia.
    - apply Z.eqb_neq. nia.
    - apply Z.eqb_neq. nia.
    - apply Z.eqb_neq. nia. }
  rewrite Eq, Em. unfold sf.
  set (q := A / B) in *.
  destruct (Z.eqb_spec (A mod B) 0) as [E1 | E1];
    destruct (Z.eqb_spec (q mod 2) 0) as [E2 | E2]; cbn [andb];
    match goal with |- context [(?x mod 4 =? 0)] =>
      destruct (Z.eqb_spec (x mod 4) 0) as [E4 | E4] end;
    Z.div_mod_to_equations; lia.
Qed.

(** Digits *)

Lemma pow2_pos (k : Z) : 0 <= k -> 0 < 2 ^ k.
Proof. intros H. apply Z.pow_pos_nonneg; lia. Qed.

Lemma pow2_succ (k : Z) : 0 <= k -> 2 ^ (k + 1) = 2 * 2 ^ k.
Proof. intros H. rewrite Z.pow_add_r by lia. lia. Qed.

Lemma digits2_pos_spec (p : positive) :
  2 ^ (Zpos (digits2_pos p) - 1) <= Zpos p < 2 ^ Zpos (digits2_pos p).
Proof.
  induction p as [p IH | p IH | ]; simpl digits2_pos.
  - rewrite Pos2Z.inj_succ. unfold Z.succ.
    replace (Zpos (digits2_pos p) + 1 - 1) with (Zpos (digits2_pos p) - 1 + 1) by lia.
    rewrite !pow2_succ by lia. lia.
  - rewrite Pos2Z.inj_succ. unfold Z.succ.
    replace (Zpos (digits2_pos p) + 1 - 1) with (Zpos (digits2_pos p) - 1 + 1) by lia.
    rewrite !pow2_succ by lia. lia.
  - simpl. lia.
Qed.

Lemma Zdigits2_spec (m : Z) :
  0 < m -> 2 ^ (Zdigits2 m - 1) <= m < 2 ^ Zdigits2 m.
Proof.
  destruct m as [ | p | p]; try lia. intros _. apply digits2_pos_spec.
Qed.

Lemma Zdigits2_pos (m : Z) : 0 < m -> 1 <= Zdigits2 m.
Proof. destruct m as [ | p | p]; simpl; lia. Qed.

Lemma Zdigits2_nonneg (m : Z) : 0 <= Zdigits2 m.
Proof. destruct m as [ | p | p]; simpl; lia. Qed.

Lemma Zdigits2_le (m k : Z) : 0 <= m -> 0 <= k -> m < 2 ^ k -> Zdigits2 m <= k.
Proof.
  intros Hm Hk H. destruct (Z.eq_dec m 0) as [-> | Hn]; [simpl; lia | ].
  destruct (Zdigits2_spec m ltac:(lia)) as [Hl _].
  destruct (Z_le_gt_dec (Zdigits2 m) k) as [Hle | Hgt]; [exact Hle | exfalso].
  pose proof (Z.pow_le_mono_r 2 k (Zdigits2 m - 1) ltac:(lia) ltac:(lia)). lia.
Qed.

Lemma Zdigits2_ge (m k : Z) : 0 <= k -> 2 ^ k <= m -> k + 1 <= Zdigits2 m.
Proof.
  intros Hk H. pose proof (pow2_pos k Hk).
  destruct (Zdigits2_spec m ltac:(lia)) as [_ Hu].
  destruct (Z_le_gt_dec (k + 1) (Zdigits2 m)) as [Hle | Hgt]; [exact Hle | exfalso].
  pose proof (Zdigits2_pos m ltac:(lia)).
  pose proof (Z.pow_le_mono_r 2 (Zdigits2 m) k ltac:(lia) ltac:(lia)). lia.
Qed.

Lemma Zdigits2_unique (m d : Z) :
  1 <= d -> 2 ^ (d - 1) <= m < 2 ^ d -> Zdigits2 m = d.
Proof.
  intros Hd [Hl Hu]. pose proof (pow2_pos (d - 1) ltac:(lia)).
  pose proof (Zdigits2_le m d ltac:(lia) ltac:(lia) Hu).
  pose proof (Zdigits2_ge m (d - 1) ltac:(lia) Hl). lia.
Qed.

Lemma Zdigits2_mono (m1 m2 : Z) : 0 <= m1 <= m2 -> Zdigits2 m1 <= Zdigits2 m2.
Proof.
  intros [H1 H2]. destruct (Z.eq_dec m1 0) as [-> | Hn].
  - simpl. apply Zdigits2_nonneg.
  - destruct (Zdigits2_spec m1 ltac:(lia)) as [Hl _].
    pose proof (Zdigits2_pos m1 ltac:(lia)).
    pose proof (Zdigits2_ge m2 (Zdigits2 m1 - 1) ltac:(lia) ltac:(lia)). lia.
Qed.

Lemma Zdigits2_mul_pow (m j : Z) :
  0 < m -> 0 <= j -> Zdigits2 (m * 2 ^ j) = Zdigits2 m + j.
Proof.
  intros Hm Hj. destruct (Zdigits2_spec m Hm) as [Hl Hu].
  pose proof (Zdigits2_pos m Hm). pose proof (pow2_pos j Hj).
  apply Zdigits2_unique; [lia | ].
  replace (Zdigits2 m + j - 1) with (Zdigits2 m - 1 + j) by lia.
  rewrite !Z.pow_add_r by lia. nia.
Qed.

(** The quotient by a power of 2 *)
Lemma div_pow2_lt (q d k : Z) :
  0 <= q -> 0 <= k <= d -> q < 2 ^ d -> q / 2 ^ k < 2 ^ (d - k).
Proof.
  intros Hq Hk H. pose proof (pow2_pos k ltac:(lia)).
  apply Z.div_lt_upper_bound; [lia | ].
  rewrite <- Z.pow_add_r by lia. replace (k + (d - k)) with d by lia. exact H.
Qed.

Lemma div_pow2_ge (q a k : Z) :
  0 <= k <= a -> 2 ^ a <= q -> 2 ^ (a - k) <= q / 2 ^ k.
Proof.
  intros Hk H. pose proof (pow2_pos k ltac:(lia)).
  apply Z.div_le_lower_bound; [lia | ].
  rewrite <- Z.pow_add_r by lia. replace (k + (a - k)) with a by lia. exact H.
Qed.

(** The shift record as one integer *)

Lemma enc_nonneg (mrs : shr_record) : 0 <= enc mrs -> 0 <= shr_m mrs.
Proof.
  destruct mrs as [m [ | ] [ | ]]; unfold enc; cbn [shr_m shr_r shr_s]; lia.
Qed.

Lemma enc_shr_1 (mrs : shr_record) :
  0 <= shr_m mrs -> enc (shr_1 mrs) = sf (enc mrs) 4.
Proof.
  destruct mrs as [m r s]. simpl shr_m. intros Hm.
  assert (E : shr_1 {| shr_m := m; shr_r := r; shr_s := s |}
              = {| shr_m := m / 2; shr_r := Z.odd m; shr_s := r || s |}).
  { destruct m as [ | p | p]; [reflexivity | | lia].
    destruct p as [p | p | ]; simpl shr_1; f_equal.
    - rewrite Pos2Z.inj_xI. Z.div_mod_to_equations. lia.
    - rewrite Pos2Z.inj_xO. Z.div_mod_to_equations. lia. }
  rewrite E. unfold enc, sf. cbn [shr_m shr_r shr_s].
  pose proof (Z.bit0_mod m) as Hb. rewrite Z.bit0_odd in Hb.
  destruct (Z.odd m); simpl Z.b2z in Hb;
    destruct r, s; simpl orb;
    match goal with |- context [(?x mod 4 =? 0)] =>
      destruct (Z.eqb_spec (x mod 4) 0) end;
    Z.div_mod_to_equations; lia.
Qed.

Lemma enc_iter (n : positive) :
  forall (mrs : shr_record) (A B : Z),
    0 < B -> 0 <= A -> enc mrs = sf A B ->
    enc (SpecFloat.iter_pos shr_1 n mrs) = sf A (B * 2 ^ Zpos n).
Proof.
  assert (Step : forall mrs A B, 0 < B -> 0 <= A -> enc mrs = sf A B ->
                   enc (shr_1 mrs) = sf A (B * 2)).
  { intros mrs A B HB HA E.
    rewrite enc_shr_1, E, sf_sf4 by
      (try apply enc_nonneg; try rewrite E; try apply sf_nonneg; lia).
    f_equal. lia. }
  induction n as [n IH | n IH | ]; intros mrs A B HB HA E;
    cbn [SpecFloat.iter_pos].
  - pose proof (pow2_pos (Zpos n) ltac:(lia)).
    assert (P : 2 ^ Zpos n~1 = 2 * 2 ^ Zpos n * 2 ^ Zpos n).
    { rewrite Pos2Z.inj_xI, <- Z.mul_assoc, <- Z.pow_add_r, <- Z.pow_succ_r by lia.
      f_equal. lia. }
    rewrite (IH _ A (B * 2 * 2 ^ Zpos n)); [ | nia | lia | ].
    + f_equal. rewrite P. lia.
    + apply IH; [lia | lia | ]. now apply Step.
  - pose proof (pow2_pos (Zpos n) ltac:(lia)).
    assert (P : 2 ^ Zpos n~0 = 2 ^ Zpos n * 2 ^ Zpos n).
    { rewrite Pos2Z.inj_xO, <- Z.pow_add_r by lia. f_equal. lia. }
    rewrite (IH _ A (B * 2 ^ Zpos n)); [ | nia | lia | ].
    + f_equal. rewrite P. lia.
    + apply IH; [lia | lia | exact E].
  - change (2 ^ 1) with 2. now apply Step.
Qed.

(** Rounding to nearest, ties to even, on the encoded record *)

Lemma rne_enc (mrs : shr_record) :
  round_nearest_even (shr_m mrs) (loc_of_shr_record mrs) = rne (enc mrs).
Proof.
  destruct mrs as [m r s]. unfold rne, enc. cbn [shr_m shr_r shr_s].
  assert (Hd : forall c, 0 <= c < 4 -> (4 * m + c) / 4 = m /\ (4 * m + c) mod 4 = c).
  { intros c Hc. Z.div_mod_to_equations. lia. }
  destruct r, s; simpl loc_of_shr_record; simpl round_nearest_even.
  - destruct (Hd 3 ltac:(lia)) as [E1 E2].
    replace (4 * m + 2 + 1) with (4 * m + 3) by lia. rewrite E1, E2. reflexivity.
  - destruct (Hd 2 ltac:(lia)) as [E1 E2].
    replace (4 * m + 2 + 0) with (4 * m + 2) by lia. rewrite E1, E2. reflexivity.
  - destruct (Hd 1 ltac:(lia)) as [E1 E2].
    replace (4 * m + 0 + 1) with (4 * m + 1) by lia. rewrite E1, E2. reflexivity.
  - destruct (Hd 0 ltac:(lia)) as [E1 E2].
    replace (4 * m + 0 + 0) with (4 * m + 0) by lia. rewrite E1, E2. reflexivity.
Qed.

Lemma rne_bounds (X : Z) : X / 4 <= rne X <= X / 4 + 1.
Proof.
  unfold rne. destruct (X mod 4 <? 2); [lia | ].
  destruct (X mod 4 =? 2); [destruct (Z.even (X / 4)); lia | lia].
Qed.

Lemma rne_mono (X1 X2 : Z) : X1 <= X2 -> rne X1 <= rne X2.
Proof.
  intros H.
  assert (Hq : X1 / 4 <= X2 / 4) by (apply Z.div_le_mono; lia).
  destruct (Z.eq_dec (X1 / 4) (X2 / 4)) as [E | NE].
  - assert (Hc : X1 mod 4 <= X2 mod 4) by (Z.div_mod_to_equations; lia).
    unfold rne. rewrite E.
    destruct (Z.ltb_spec (X1 mod 4) 2); destruct (Z.ltb_spec (X2 mod 4) 2);
      destruct (Z.eqb_spec (X1 mod 4) 2); destruct (Z.eqb_spec (X2 mod 4) 2);
      destruct (Z.even (X2 / 4)); try lia.
  - pose proof (rne_bounds X1). pose proof (rne_bounds X2). lia.
Qed.

Lemma rne_exact (m : Z) : rne (4 * m) = m.
Proof.
  unfold rne.
  assert (E : 4 * m / 4 = m /\ (4 * m) mod 4 = 0) by (Z.div_mod_to_equations; lia).
  destruct E as [-> ->]. reflexivity.
Qed.

(** Binary64 parameters *)

Lemma fexp_eq (x : Z) : fexp prec emax x = Z.max (x - 53) (-1074).
Proof. reflexivity. Qed.

Lemma fexp_ge_emin (x : Z) : -1074 <= fexp prec emax x.
Proof. rewrite fexp_eq. lia. Qed.

Lemma fexp_mono (x y : Z) : x <= y -> fexp prec emax x <= fexp prec emax y.
Proof. rewrite !fexp_eq. lia. Qed.

(** The rounding of the value [(A / B) * 2 ^ fine] *)

Lemma RndV_quot (A B : Z) :
  0 <= A -> 0 < B ->
  let E := fexp prec emax (Zdigits2 (A / B) + fine) in
  sf (2 * A) (B * 2 ^ (E - fine)) / 4 = A / B / 2 ^ (E - fine).
Proof.
  intros HA HB E.
  assert (HE : 0 <= E - fine) by (pose proof (fexp_ge_emin (Zdigits2 (A / B) + fine)); subst E; unfold fine in *; lia).
  pose proof (pow2_pos _ HE).
  rewrite sf_div4 by nia. rewrite Z.div_div by lia. reflexivity.
Qed.

Lemma RndV_bound (A B : Z) :
  0 <= A -> 0 < B -> 0 <= fst (RndV A B) <= 2 ^ 53.
Proof.
  intros HA HB. unfold RndV. cbn [fst].
  set (E := fexp prec emax (Zdigits2 (A / B) + fine)).
  pose proof (RndV_quot A B HA HB) as Hq. cbv zeta in Hq. fold E in Hq.
  set (X := sf (2 * A) (B * 2 ^ (E - fine))) in *.
  pose proof (rne_bounds X) as Hr. rewrite Hq in Hr.
  assert (HE : 0 <= E - fine) by (pose proof (fexp_ge_emin (Zdigits2 (A / B) + fine)); subst E; unfold fine in *; lia).
  pose proof (pow2_pos _ HE).
  set (q := A / B) in *.
  assert (Hq0 : 0 <= q) by (apply Z.div_pos; lia).
  assert (Hlo : 0 <= q / 2 ^ (E - fine)) by (apply Z.div_pos; lia).
  assert (Hhi : q / 2 ^ (E - fine) < 2 ^ 53).
  { destruct (Z.eq_dec q 0) as [-> | Hn]; [rewrite Z.div_0_l by lia; lia | ].
    destruct (Zdigits2_spec q ltac:(lia)) as [_ Hu].
    pose proof (Zdigits2_pos q ltac:(lia)).
    assert (Hk : Zdigits2 q - 53 <= E - fine) by (unfold E; rewrite fexp_eq; lia).
    destruct (Z_le_gt_dec (E - fine) (Zdigits2 q)) as [Hle | Hgt].
    - pose proof (div_pow2_lt q (Zdigits2 q) (E - fine) Hq0 ltac:(lia) Hu).
      pose proof (Z.pow_le_mono_r 2 (Zdigits2 q - (E - fine)) 53 ltac:(lia) ltac:(lia)).
      lia.
    - rewrite Z.div_small; [lia | ].
      pose proof (Z.pow_le_mono_r 2 (Zdigits2 q) (E - fine) ltac:(lia) ltac:(lia)).
      lia. }
  lia.
Qed.

(** The second half of [binary_round_aux] *)

Lemma binary_round_aux_finish (s : bool) (m e : Z) (l : location) :
  binary_round_aux prec emax s m e l
  = finish s (round_nearest_even (shr_m (fst (shr_fexp prec emax m e l)))
                (loc_of_shr_record (fst (shr_fexp prec emax m e l))))
      (snd (shr_fexp prec emax m e l)).
Proof.
  unfold binary_round_aux, finish.
  destruct (shr_fexp prec emax m e l) as [mrs' e']. reflexivity.
Qed.

Lemma finish_pack (s : bool) (m1 E : Z) :
  0 <= m1 <= 2 ^ 53 -> -1074 <= E -> finish s m1 E = pack s (norm (m1, E)).
Proof.
  intros Hm HE. unfold finish, shr_fexp, norm, pack. cbn [fst snd].
  destruct (Z.eqb_spec m1 (2 ^ 53)) as [-> | Hn].
  - change (Zdigits2 (2 ^ 53)) with 54. rewrite fexp_eq.
    replace (Z.max (54 + E - 53) (-1074) - E) with 1 by lia.
    reflexivity.
  - assert (Hd : Zdigits2 m1 <= 53) by (apply Zdigits2_le; lia).
    rewrite fexp_eq.
    assert (Hk : Z.max (Zdigits2 m1 + E - 53) (-1074) - E <= 0) by lia.
    unfold shr.
    destruct (Z.max (Zdigits2 m1 + E - 53) (-1074) - E) as [ | p | p];
      try lia; reflexivity.
Qed.

(** The first half of [binary_round_aux] *)

Lemma enc_of_loc (m : Z) (l : location) :
  enc (shr_record_of_loc m l) = 4 * m + code l.
Proof. destruct l as [ | [ | | ]]; unfold enc; cbn; lia. Qed.

Lemma digits_scaled_div (A B j : Z) :
  0 < B -> 0 <= j -> 1 <= A / B ->
  Zdigits2 (A * 2 ^ j / B) = Zdigits2 (A / B) + j.
Proof.
  intros HB Hj Hq. set (q := A / B) in *.
  assert (HA : B * q <= A < B * (q + 1)).
  { unfold q. pose proof (Z.mul_div_le A B HB).
    pose proof (Z.mul_succ_div_gt A B HB). lia. }
  destruct (Zdigits2_spec q ltac:(lia)) as [Hl Hu].
  pose proof (Zdigits2_pos q ltac:(lia)) as Hd.
  pose proof (pow2_pos j Hj) as Pj.
  apply Zdigits2_unique; [lia | ].
  replace (Zdigits2 q + j - 1) with (Zdigits2 q - 1 + j) by lia.
  rewrite !Z.pow_add_r by lia.
  set (a := 2 ^ (Zdigits2 q - 1)) in *. set (b := 2 ^ Zdigits2 q) in *.
  set (c := 2 ^ j) in *.
  assert (H1 : B * a <= A) by nia.
  assert (H2 : A < B * b) by nia.
  split.
  - apply Z.div_le_lower_bound; [lia | ]. nia.
  - apply Z.div_lt_upper_bound; [lia | ]. nia.
Qed.

Lemma digits_small_div (A B j : Z) :
  0 < B -> 0 <= j -> 0 <= A -> A / B = 0 -> Zdigits2 (A * 2 ^ j / B) <= j.
Proof.
  intros HB Hj HA Hq. pose proof (pow2_pos j Hj) as Pj.
  assert (A < B).
  { pose proof (Z.mul_succ_div_gt A B HB). rewrite Hq in *. lia. }
  apply Zdigits2_le; [apply Z.div_pos; nia | lia | ].
  apply Z.div_lt_upper_bound; [lia | ]. nia.
Qed.

(** The canonical exponent does not depend on the scale at which the value
    is given. *)
Lemma canonical_exponent_scale (A B e : Z) :
  0 < B -> 0 <= A -> fine <= e ->
  e <= fexp prec emax (Zdigits2 (A / B) + e) ->
  fexp prec emax (Zdigits2 (A * 2 ^ (e - fine) / B) + fine)
  = fexp prec emax (Zdigits2 (A / B) + e).
Proof.
  intros HB HA He Hn.
  destruct (Z.eq_dec (A / B) 0) as [E0 | Hq].
  - pose proof (digits_small_div A B (e - fine) HB ltac:(lia) HA E0) as Hs.
    assert (0 <= A * 2 ^ (e - fine) / B).
    { apply Z.div_pos; [ | lia]. pose proof (pow2_pos (e - fine) ltac:(lia)). nia. }
    pose proof (Zdigits2_nonneg (A * 2 ^ (e - fine) / B)).
    rewrite E0 in *. change (Zdigits2 0) with 0 in *.
    rewrite !fexp_eq in *. unfold fine in *. lia.
  - assert (1 <= A / B) by (pose proof (Z.div_pos A B HA HB); lia).
    rewrite digits_scaled_div by lia. f_equal. lia.
Qed.

Lemma binary_round_aux_Round (s : bool) (m e : Z) (l : location) (A B : Z) :
  0 < B -> 0 <= A -> fine <= e ->
  4 * m + code l = sf (2 * A) B ->
  e <= fexp prec emax (Zdigits2 m + e) ->
  binary_round_aux prec emax s m e l = Round s (A * 2 ^ (e - fine)) B.
Proof.
  intros HB HA He Henc Hn.
  assert (Hm : m = A / B).
  { rewrite <- (sf_div4 A B HB), <- Henc.
    assert (0 <= code l < 4) by (destruct l as [ | [ | | ]]; simpl; lia).
    Z.div_mod_to_equations. lia. }
  pose proof (pow2_pos (e - fine) ltac:(lia)) as Pj.
  set (Ep := fexp prec emax (Zdigits2 m + e)) in *.
  assert (HE : fexp prec emax (Zdigits2 (A * 2 ^ (e - fine) / B) + fine) = Ep).
  { unfold Ep. rewrite Hm. apply canonical_exponent_scale; try assumption.
    rewrite <- Hm. exact Hn. }
  (* the first shift *)
  assert (Hshr : enc (fst (shr_fexp prec emax m e l)) = sf (2 * A) (B * 2 ^ (Ep - e))
                 /\ snd (shr_fexp prec emax m e l) = Ep).
  { unfold shr_fexp. fold Ep. unfold shr.
    destruct (Ep - e) as [ | p | p] eqn:En; try lia.
    - cbn [fst snd]. rewrite enc_of_loc, Henc. split; [ | lia].
      f_equal. simpl. lia.
    - cbn [fst snd]. split; [ | lia].
      apply enc_iter; [lia | lia | ]. rewrite enc_of_loc. exact Henc. }
  destruct Hshr as [Hx He'].
  rewrite binary_round_aux_finish, rne_enc, Hx, He'.
  unfold Round, RndV. rewrite HE.
  assert (HX : sf (2 * (A * 2 ^ (e - fine))) (B * 2 ^ (Ep - fine))
               = sf (2 * A) (B * 2 ^ (Ep - e))).
  { pose proof (pow2_pos (Ep - e) ltac:(lia)).
    apply sf_ext; [ | nia | ].
    - pose proof (pow2_pos (Ep - fine) ltac:(lia)). nia.
    - replace (Ep - fine) with (Ep - e + (e - fine)) by lia.
      rewrite Z.pow_add_r by lia. ring. }
  rewrite HX. apply finish_pack.
  - pose proof (RndV_bound (A * 2 ^ (e - fine)) B ltac:(nia) HB) as Hb.
    unfold RndV in Hb. cbn [fst] in Hb. rewrite HE, HX in Hb. exact Hb.
  - unfold Ep. apply fexp_ge_emin.
Qed.

(** Rounding is monotone *)

Lemma SFleb_finite_pos (p1 p2 : positive) (e1 e2 : Z) :
  e1 < e2 \/ (e1 = e2 /\ Zpos p1 <= Zpos p2) ->
  SFleb (S754_finite false p1 e1) (S754_finite false p2 e2) = true.
Proof.
  intros H. unfold SFleb, SFcompare.
  destruct H as [H | [-> H]].
  - apply Z.compare_lt_iff in H. rewrite H. reflexivity.
  - rewrite Z.compare_refl.
    change (PosDef.Pos.compare_cont Eq p1 p2) with (p1 ?= p2)%positive.
    destruct (p1 ?= p2)%positive eqn:E; try reflexivity.
    apply Pos.compare_gt_iff in E. lia.
Qed.

Lemma pack_norm_le (m1 E1 m2 E2 : Z) :
  0 <= m1 <= 2 ^ 53 -> 0 <= m2 <= 2 ^ 53 ->
  (E1 = E2 /\ m1 <= m2) \/ (E1 < E2 /\ 2 ^ 52 <= m2) ->
  SFleb (pack false (norm (m1, E1))) (pack false (norm (m2, E2))) = true.
Proof.
  intros H1 H2 H. unfold norm. cbn [fst snd].
  assert (P52 : 2 ^ 52 = 4503599627370496) by reflexivity.
  assert (P53 : 2 ^ 53 = 9007199254740992) by reflexivity.
  rewrite P52, P53 in *.
  destruct (Z.eqb_spec m1 9007199254740992) as [-> | N1];
    destruct (Z.eqb_spec m2 9007199254740992) as [-> | N2];
    unfold pack; cbn [fst snd].
  - (* both carry *)
    destruct (Z.leb_spec (E1 + 1) 971); destruct (Z.leb_spec (E2 + 1) 971);
      try reflexivity; try lia.
    apply SFleb_finite_pos. lia.
  - (* only the first carries *)
    destruct m2 as [ | p2 | p2]; try lia.
    destruct (Z.leb_spec (E1 + 1) 971); destruct (Z.leb_spec E2 971);
      try reflexivity; try lia.
    apply SFleb_finite_pos. lia.
  - (* only the second carries *)
    destruct m1 as [ | p1 | p1]; try lia.
    + destruct (Z.leb_spec (E2 + 1) 971); reflexivity.
    + destruct (Z.leb_spec E1 971); destruct (Z.leb_spec (E2 + 1) 971);
        try reflexivity; try lia.
      apply SFleb_finite_pos. lia.
  - destruct m1 as [ | p1 | p1]; try lia.
    + destruct m2 as [ | p2 | p2]; try lia; try reflexivity.
      destruct (Z.leb_spec E2 971); reflexivity.
    + destruct m2 as [ | p2 | p2]; try lia.
      destruct (Z.leb_spec E1 971); destruct (Z.leb_spec E2 971);
        try reflexivity; try lia.
      apply SFleb_finite_pos. lia.
Qed.

Lemma Round_mono (A1 B1 A2 B2 : Z) :
  0 <= A1 -> 0 < B1 -> 0 < B2 -> A1 * B2 <= A2 * B1 ->
  SFleb (Round false A1 B1) (Round false A2 B2) = true.
Proof.
  intros HA1 HB1 HB2 H.
  assert (HA2 : 0 <= A2) by nia.
  pose proof (div_mono_frac A1 B1 A2 B2 HB1 HB2 H) as Hq.
  assert (Hq1 : 0 <= A1 / B1) by (apply Z.div_pos; lia).
  pose proof (Zdigits2_mono (A1 / B1) (A2 / B2) ltac:(lia)) as Hd.
  pose proof (RndV_bound A1 B1 HA1 HB1) as Hb1.
  pose proof (RndV_bound A2 B2 HA2 HB2) as Hb2.
  pose proof (RndV_quot A2 B2 HA2 HB2) as Hx2. cbv zeta in Hx2.
  unfold Round. unfold RndV in *. cbn [fst] in Hb1, Hb2.
  set (E1 := fexp prec emax (Zdigits2 (A1 / B1) + fine)) in *.
  set (E2 := fexp prec emax (Zdigits2 (A2 / B2) + fine)) in *.
  assert (HE : E1 <= E2) by (apply fexp_mono; lia).
  assert (HE1 : 0 <= E1 - fine)
    by (pose proof (fexp_ge_emin (Zdigits2 (A1 / B1) + fine)); subst E1; unfold fine in *; lia).
  apply pack_norm_le; try assumption.
  destruct (Z.eq_dec E1 E2) as [Eq | Ne]; [left | right].
  - split; [exact Eq | ]. apply rne_mono. rewrite <- Eq.
    pose proof (pow2_pos (E1 - fine) HE1).
    apply sf_mono; nia.
  - split; [lia | ].
    set (X2 := sf (2 * A2) (B2 * 2 ^ (E2 - fine))) in *.
    pose proof (rne_bounds X2) as Hr. rewrite Hx2 in Hr.
    assert (Hq2 : 0 < A2 / B2).
    { destruct (Z.eq_dec (A2 / B2) 0) as [Z0 | NZ]; [ | lia].
      exfalso. assert (Z1 : A1 / B1 = 0) by lia.
      subst E1 E2. rewrite Z0, Z1 in Ne. now apply Ne. }
    destruct (Zdigits2_spec (A2 / B2) Hq2) as [Hl _].
    pose proof (Zdigits2_pos (A2 / B2) Hq2).
    assert (Hk : E2 - fine = Zdigits2 (A2 / B2) - 53).
    { pose proof (fexp_eq (Zdigits2 (A1 / B1) + fine)) as F1.
      pose proof (fexp_eq (Zdigits2 (A2 / B2) + fine)) as F2.
      fold E1 in F1. fold E2 in F2. unfold fine in *. lia. }
    pose proof (div_pow2_ge (A2 / B2) (Zdigits2 (A2 / B2) - 1) (E2 - fine)
                  ltac:(lia) Hl) as Hge.
    replace (Zdigits2 (A2 / B2) - 1 - (E2 - fine)) with 52 in Hge by lia.
    lia.
Qed.

(** The rounding depends on the value only *)

Lemma Round_ext (s : bool) (A1 B1 A2 B2 : Z) :
  0 < B1 -> 0 < B2 -> A1 * B2 = A2 * B1 -> Round s A1 B1 = Round s A2 B2.
Proof.
  intros H1 H2 H. unfold Round, RndV.
  assert (Hq : A1 / B1 = A2 / B2).
  { apply Z.le_antisymm; apply div_mono_frac; lia. }
  rewrite Hq.
  set (E := fexp prec emax (Zdigits2 (A2 / B2) + fine)).
  assert (HE : 0 <= E - fine)
    by (pose proof (fexp_ge_emin (Zdigits2 (A2 / B2) + fine)); subst E; unfold fine in *; lia).
  pose proof (pow2_pos _ HE).
  rewrite (sf_ext (2 * A1) (B1 * 2 ^ (E - fine)) (2 * A2) (B2 * 2 ^ (E - fine)))
    by nia.
  reflexivity.
Qed.

(** Valid finite numbers *)

Lemma bounded_spec (m : positive) (e : Z) :
  SpecFloat.bounded prec emax m e = true ->
  -1074 <= e <= 971
  /\ Zdigits2 (Zpos m) <= 53
  /\ (-1074 < e -> Zdigits2 (Zpos m) = 53)
  /\ fexp prec emax (Zdigits2 (Zpos m) + e) = e.
Proof.
  unfold SpecFloat.bounded, canonical_mantissa. intros H.
  apply andb_true_iff in H as [Hc Hb].
  apply Z.eqb_eq in Hc. apply Z.leb_le in Hb.
  change (Zpos (digits2_pos m)) with (Zdigits2 (Zpos m)) in Hc.
  change (emax - prec) with 971 in Hb.
  pose proof Hc as Hc'. rewrite fexp_eq in Hc'.
  repeat split; try lia; exact Hc.
Qed.

Lemma mag_pos (s : bool) (m : positive) (e : Z) :
  fine <= e -> 0 < mag (S754_finite s m e).
Proof.
  intros H. unfold mag. pose proof (pow2_pos (e - fine) ltac:(lia)). nia.
Qed.

Lemma Round_valid (s : bool) (m : positive) (e : Z) :
  SpecFloat.bounded prec emax m e = true ->
  Round s (mag (S754_finite s m e)) 1 = S754_finite s m e.
Proof.
  intros Hv. destruct (bounded_spec m e Hv) as (He & Hd & _ & Hc).
  assert (Hf : 0 <= e - fine) by (unfold fine; lia).
  pose proof (pow2_pos _ Hf) as Pj.
  unfold Round, RndV, mag. rewrite Z.div_1_r.
  rewrite Zdigits2_mul_pow by lia.
  replace (Zdigits2 (Zpos m) + (e - fine) + fine) with (Zdigits2 (Zpos m) + e) by lia.
  rewrite Hc.
  replace (sf (2 * (Zpos m * 2 ^ (e - fine))) (1 * 2 ^ (e - fine)))
    with (4 * Zpos m).
  2:{ rewrite (sf_ext _ _ (2 * Zpos m) 1) by nia.
      unfold sf. rewrite Z.div_1_r, Z.mod_1_r, Z.eqb_refl. lia. }
  rewrite rne_exact. unfold norm, pack. cbn [fst snd].
  destruct (Zdigits2_spec (Zpos m) ltac:(lia)) as [_ Hu].
  pose proof (Z.pow_le_mono_r 2 (Zdigits2 (Zpos m)) 53 ltac:(lia) Hd).
  destruct (Z.eqb_spec (Zpos m) (2 ^ 53)) as [E | _]; [lia | ].
  cbn [fst snd]. destruct (Z.leb_spec e 971); [reflexivity | lia].
Qed.

(** For valid numbers the order of the pairs (exponent, mantissa) is the
    order of the values. *)
Lemma lex_mag (m1 m2 : positive) (e1 e2 : Z) :
  SpecFloat.bounded prec emax m1 e1 = true -> SpecFloat.bounded prec emax m2 e2 = true ->
  (e1 < e2 \/ (e1 = e2 /\ Zpos m1 <= Zpos m2) ->
   Zpos m1 * 2 ^ (e1 - fine) <= Zpos m2 * 2 ^ (e2 - fine))
  /\ (e1 < e2 \/ (e1 = e2 /\ Zpos m1 < Zpos m2) ->
      Zpos m1 * 2 ^ (e1 - fine) < Zpos m2 * 2 ^ (e2 - fine)).
Proof.
  intros V1 V2.
  destruct (bounded_spec m1 e1 V1) as (He1 & Hd1 & _ & _).
  destruct (bounded_spec m2 e2 V2) as (He2 & Hd2 & Hn2 & _).
  assert (Hf1 : 0 <= e1 - fine) by (unfold fine; lia).
  assert (Hf2 : 0 <= e2 - fine) by (unfold fine; lia).
  pose proof (pow2_pos _ Hf1) as P1. pose proof (pow2_pos _ Hf2) as P2.
  assert (Hlt : e1 < e2 -> Zpos m1 * 2 ^ (e1 - fine) < Zpos m2 * 2 ^ (e2 - fine)).
  { intros H. specialize (Hn2 ltac:(lia)).
    destruct (Zdigits2_spec (Zpos m1) ltac:(lia)) as [_ Hu1].
    destruct (Zdigits2_spec (Zpos m2) ltac:(lia)) as [Hl2 _].
    rewrite Hn2 in Hl2. change (2 ^ (53 - 1)) with (2 ^ 52) in Hl2.
    pose proof (Z.pow_le_mono_r 2 (Zdigits2 (Zpos m1)) 53 ltac:(lia) Hd1).
    assert (Hp : 2 ^ 53 * 2 ^ (e1 - fine) <= 2 ^ 52 * 2 ^ (e2 - fine)).
    { rewrite <- !Z.pow_add_r by lia. apply Z.pow_le_mono_r; lia. }
    nia. }
  split; intros [H | [-> H]]; try (specialize (Hlt H); lia); nia.
Qed.

(** Alignment *)

Lemma iter_xO (m d : positive) :
  Zpos (Pos.iter xO m d) = Zpos m * 2 ^ Zpos d.
Proof.
  induction d as [ | d IH] using Pos.peano_ind.
  - simpl Pos.iter. change (2 ^ 1) with 2. lia.
  - rewrite Pos.iter_succ, Pos2Z.inj_xO, IH, Pos2Z.inj_succ.
    unfold Z.succ. rewrite pow2_succ by lia. lia.
Qed.

Lemma shl_align_le (m : positive) (e e' : Z) :
  e <= e' -> shl_align m e e' = (m, e).
Proof.
  intros H. unfold shl_align.
  destruct (e' - e) as [ | p | p] eqn:E; try reflexivity. lia.
Qed.

Lemma shl_align_gt (m : positive) (e e' : Z) :
  e' < e ->
  exists m', shl_align m e e' = (m', e') /\ Zpos m' = Zpos m * 2 ^ (e - e').
Proof.
  intros H. unfold shl_align.
  destruct (e' - e) as [ | p | p] eqn:E; try lia.
  exists (Pos.iter xO m p). split; [reflexivity | ].
  rewrite iter_xO. f_equal. f_equal. lia.
Qed.

Lemma shl_align_fst (m : positive) (e e' : Z) :
  e' <= e -> Zpos (fst (shl_align m e e')) = Zpos m * 2 ^ (e - e').
Proof.
  intros H. destruct (Z.eq_dec e' e) as [-> | Hn].
  - rewrite shl_align_le by lia. cbn [fst]. rewrite Z.sub_diag. simpl. lia.
  - destruct (shl_align_gt m e e' ltac:(lia)) as (m' & -> & E). exact E.
Qed.

Lemma sf_exact (A : Z) : sf (2 * A) 1 = 4 * A.
Proof. unfold sf. rewrite Z.div_1_r, Z.mod_1_r, Z.eqb_refl. lia. Qed.

(** [binary_round] rounds the value it is given *)
Lemma binary_round_Round (s : bool) (p : positive) (e : Z) :
  fine <= e ->
  binary_round prec emax s p e = Round s (Zpos p * 2 ^ (e - fine)) 1.
Proof.
  intros He. unfold binary_round.
  change (Zpos (digits2_pos p)) with (Zdigits2 (Zpos p)).
  set (Ep := fexp prec emax (Zdigits2 (Zpos p) + e)).
  assert (HEp : -1074 <= Ep) by apply fexp_ge_emin.
  destruct (Z_lt_le_dec Ep e) as [Hlt | Hle].
  - destruct (shl_align_gt p e Ep Hlt) as (mz & -> & Emz).
    rewrite (binary_round_aux_Round s (Zpos mz) Ep loc_Exact (Zpos mz) 1);
      try lia.
    + apply Round_ext; try lia. rewrite Emz.
      replace (e - fine) with (e - Ep + (Ep - fine)) by lia.
      rewrite Z.pow_add_r by (unfold fine in *; lia). ring.
    + unfold fine. lia.
    + simpl code. rewrite sf_exact. lia.
    + rewrite Emz, Zdigits2_mul_pow by lia.
      replace (Zdigits2 (Zpos p) + (e - Ep) + Ep) with (Zdigits2 (Zpos p) + e) by lia.
      fold Ep. lia.
  - rewrite shl_align_le by lia.
    apply (binary_round_aux_Round s (Zpos p) e loc_Exact (Zpos p) 1);
      try lia.
    simpl code. rewrite sf_exact. lia.
Qed.

(** Multiplication *)

Lemma SFmul_Round (sx sy : bool) (mx my : positive) (ex ey : Z) :
  SpecFloat.bounded prec emax mx ex = true -> SpecFloat.bounded prec emax my ey = true ->
  SFmul prec emax (S754_finite sx mx ex) (S754_finite sy my ey)
  = Round (xorb sx sy)
      (mag (S754_finite sx mx ex) * mag (S754_finite sy my ey))
      (2 ^ (- fine)).
Proof.
  intros Vx Vy.
  destruct (bounded_spec mx ex Vx) as (Hex & Hdx & Hnx & _).
  destruct (bounded_spec my ey Vy) as (Hey & Hdy & Hny & _).
  unfold SFmul.
  change (Zpos (PosDef.Pos.mul mx my)) with (Zpos (mx * my)).
  rewrite Pos2Z.inj_mul.
  rewrite (binary_round_aux_Round _ _ _ _ (Zpos mx * Zpos my) 1);
    try (unfold fine; lia).
  - pose proof (pow2_pos (- fine) ltac:(unfold fine; lia)).
    apply Round_ext; try lia. unfold mag.
    replace (Zpos mx * 2 ^ (ex - fine) * (Zpos my * 2 ^ (ey - fine)) * 1)
      with (Zpos mx * Zpos my * (2 ^ (ex - fine) * 2 ^ (ey - fine))) by ring.
    rewrite <- Z.mul_assoc. f_equal.
    rewrite <- !Z.pow_add_r by (unfold fine; lia). f_equal. unfold fine. lia.
  - simpl code. rewrite sf_exact. lia.
  - rewrite fexp_eq.
    assert (Hmx : Zdigits2 (Zpos mx) <= Zdigits2 (Zpos mx * Zpos my))
      by (apply Zdigits2_mono; nia).
    assert (Hmy : Zdigits2 (Zpos my) <= Zdigits2 (Zpos mx * Zpos my))
      by (apply Zdigits2_mono; nia).
    lia.
Qed.

(** Division *)

Lemma new_location_cases (nb r : Z) :
  0 < nb -> 0 <= r < nb ->
  code (new_location nb r)
  = if r =? 0 then 0 else if 2 * r <? nb then 1 else if 2 * r =? nb then 2 else 3.
Proof.
  intros Hnb Hr.
  unfold new_location.
  destruct (IntDef.Z.even nb) eqn:Ev;
    change (IntDef.Z.even nb) with (Z.even nb) in Ev;
    unfold new_location_even, new_location_odd;
    change IntDef.Z.eqb with Z.eqb; change IntDef.Z.compare with Z.compare;
    change IntDef.Z.mul with Z.mul; change IntDef.Z.add with Z.add;
    destruct (Z.eqb_spec r 0) as [E0 | N0]; try reflexivity.
  - destruct (Z.compare_spec (2 * r) nb) as [C | C | C]; cbn [code].
    + destruct (Z.ltb_spec (2 * r) nb); [lia | ].
      destruct (Z.eqb_spec (2 * r) nb); [reflexivity | lia].
    + destruct (Z.ltb_spec (2 * r) nb); [reflexivity | lia].
    + destruct (Z.ltb_spec (2 * r) nb); [lia | ].
      destruct (Z.eqb_spec (2 * r) nb); [lia | reflexivity].
  - assert (Hodd : 2 * r <> nb).
    { intros C. rewrite <- C, Z.even_mul in Ev. discriminate. }
    destruct (Z.compare_spec (2 * r + 1) nb) as [C | C | C]; cbn [code].
    + destruct (Z.ltb_spec (2 * r) nb); [reflexivity | lia].
    + destruct (Z.ltb_spec (2 * r) nb); [reflexivity | lia].
    + destruct (Z.ltb_spec (2 * r) nb); [lia | ].
      destruct (Z.eqb_spec (2 * r) nb); [lia | reflexivity].
Qed.

Lemma new_location_code (nb q r : Z) :
  0 < nb -> 0 <= r < nb ->
  4 * q + code (new_location nb r) = sf (2 * (nb * q + r)) nb.
Proof.
  intros Hnb Hr. rewrite new_location_cases by assumption.
  assert (Hdm : forall t, 0 <= 2 * r - t * nb < nb ->
                  2 * (nb * q + r) / nb = 2 * q + t
                  /\ (2 * (nb * q + r)) mod nb = 2 * r - t * nb).
  { intros t Hb.
    assert (E : 2 * (nb * q + r) = nb * (2 * q + t) + (2 * r - t * nb)) by ring.
    split.
    - symmetry. apply (Z.div_unique_pos _ _ _ (2 * r - t * nb)); [lia | exact E].
    - symmetry. apply (Z.mod_unique_pos _ _ (2 * q + t)); [lia | exact E]. }
  unfold sf.
  destruct (Z.eqb_spec r 0) as [E0 | N0];
    [ | destruct (Z.ltb_spec (2 * r) nb) as [Hlt | Hge];
        [ | destruct (Z.eqb_spec (2 * r) nb) as [Eq | Ne]]].
  - destruct (Hdm 0 ltac:(lia)) as [-> ->].
    destruct (Z.eqb_spec (2 * r - 0 * nb) 0); lia.
  - destruct (Hdm 0 ltac:(lia)) as [-> ->].
    destruct (Z.eqb_spec (2 * r - 0 * nb) 0); lia.
  - destruct (Hdm 1 ltac:(lia)) as [-> ->].
    destruct (Z.eqb_spec (2 * r - 1 * nb) 0); lia.
  - destruct (Hdm 1 ltac:(lia)) as [-> ->].
    destruct (Z.eqb_spec (2 * r - 1 * nb) 0); lia.
Qed.

Lemma SFdiv_Round (sx sy : bool) (mx my : positive) (ex ey : Z) :
  SpecFloat.bounded prec emax mx ex = true -> SpecFloat.bounded prec emax my ey = true ->
  SFdiv prec emax (S754_finite sx mx ex) (S754_finite sy my ey)
  = Round (xorb sx sy)
      (mag (S754_finite sx mx ex) * 2 ^ (- fine))
      (mag (S754_finite sy my ey)).
Proof.
  intros Vx Vy.
  destruct (bounded_spec mx ex Vx) as (Hex & Hdx & Hnx & _).
  destruct (bounded_spec my ey Vy) as (Hey & Hdy & Hny & _).
  unfold SFdiv, SFdiv_core_binary.
  set (D := Zdigits2 (Zpos mx) + ex - (Zdigits2 (Zpos my) + ey)).
  set (e' := Z.min (fexp prec emax D) (ex - ey)).
  remember (ex - ey - e') as sh eqn:Esh.
  assert (Hsh : 0 <= sh) by (unfold e' in Esh; lia).
  assert (Hm' : match sh with
                | 0 => Zpos mx
                | Zpos _ => Z.shiftl (Zpos mx) sh
                | Zneg _ => 0
                end = Zpos mx * 2 ^ sh).
  { destruct sh as [ | p | p]; try lia.
    rewrite Z.shiftl_mul_pow2 by lia. reflexivity. }
  change IntDef.Z.shiftl with Z.shiftl.
  rewrite Hm'. set (m' := Zpos mx * 2 ^ sh) in *. clear Hm'.
  assert (Hm' : m' = Zpos mx * 2 ^ sh) by reflexivity.
  pose proof (pow2_pos sh Hsh) as Psh.
  pose proof (Z.div_eucl_eq m' (Zpos my) ltac:(lia)) as Heq.
  pose proof (Z.mod_pos_bound m' (Zpos my) ltac:(lia)) as Hrb.
  unfold Z.modulo in Hrb.
  destruct (Z.div_eucl m' (Zpos my)) as [q r] eqn:Edm.
  assert (Hq : q = m' / Zpos my) by (unfold Z.div; now rewrite Edm).
  assert (He' : fine <= e').
  { unfold e'. rewrite fexp_eq. unfold fine. lia. }
  destruct (Zdigits2_spec (Zpos mx) ltac:(lia)) as [Hlx Hux].
  destruct (Zdigits2_spec (Zpos my) ltac:(lia)) as [Hly Huy].
  pose proof (Zdigits2_pos (Zpos mx) ltac:(lia)) as Hpx.
  pose proof (Zdigits2_pos (Zpos my) ltac:(lia)) as Hpy.
  rewrite (binary_round_aux_Round _ q e' _ m' (Zpos my)); try lia.
  - pose proof (pow2_pos (- fine) ltac:(unfold fine; lia)).
    pose proof (pow2_pos (ey - fine) ltac:(unfold fine; lia)).
    apply Round_ext; [lia | apply mag_pos; unfold fine; lia | ].
    unfold mag. rewrite Hm'.
    replace (Zpos mx * 2 ^ sh * 2 ^ (e' - fine) * (Zpos my * 2 ^ (ey - fine)))
      with (Zpos mx * Zpos my * (2 ^ sh * 2 ^ (e' - fine) * 2 ^ (ey - fine))) by ring.
    replace (Zpos mx * 2 ^ (ex - fine) * 2 ^ (- fine) * Zpos my)
      with (Zpos mx * Zpos my * (2 ^ (ex - fine) * 2 ^ (- fine))) by ring.
    f_equal. rewrite <- !Z.pow_add_r by (unfold fine in *; lia).
    f_equal. lia.
  - rewrite Heq. apply new_location_code; lia.
  - (* the quotient has enough digits *)
    assert (HD : D <= Zdigits2 q + e').
    { destruct (Z_le_gt_dec (D - e') 0) as [Hle | Hgt].
      - pose proof (Zdigits2_nonneg q). lia.
      - assert (Hk : 0 <= D - e' - 1) by lia.
        assert (Hge : 2 ^ (D - e' - 1) <= q).
        { rewrite Hq. apply Z.div_le_lower_bound; [lia | ].
          rewrite Hm'.
          assert (Es : D - e' - 1 + Zdigits2 (Zpos my) = Zdigits2 (Zpos mx) - 1 + sh)
            by (unfold D; lia).
          assert (P : 2 ^ (D - e' - 1) * 2 ^ Zdigits2 (Zpos my)
                      = 2 ^ (Zdigits2 (Zpos mx) - 1) * 2 ^ sh).
          { rewrite <- !Z.pow_add_r by lia. f_equal. exact Es. }
          pose proof (pow2_pos (D - e' - 1) Hk).
          nia. }
        pose proof (Zdigits2_ge q (D - e' - 1) Hk Hge). lia. }
    pose proof (fexp_mono D (Zdigits2 q + e') HD). unfold e' at 1. lia.
Qed.

(** Addition *)

Lemma SFadd_Round (sx sy : bool) (mx my : positive) (ex ey : Z) :
  SpecFloat.bounded prec emax mx ex = true -> SpecFloat.bounded prec emax my ey = true ->
  SFadd prec emax (S754_finite sx mx ex) (S754_finite sy my ey)
  = match sv (S754_finite sx mx ex) + sv (S754_finite sy my ey) with
    | Z0 => S754_zero false
    | Zpos p => Round false (Zpos p) 1
    | Zneg p => Round true (Zpos p) 1
    end.
Proof.
  intros Vx Vy.
  destruct (bounded_spec mx ex Vx) as (Hex & _).
  destruct (bounded_spec my ey Vy) as (Hey & _).
  unfold SFadd. change IntDef.Z.min with Z.min. change IntDef.Z.add with Z.add.
  set (ez := Z.min ex ey).
  assert (Hez : -1074 <= ez) by (unfold ez; lia).
  rewrite !shl_align_fst by (unfold ez; lia).
  set (M := cond_Zopp sx (Zpos mx * 2 ^ (ex - ez))
            + cond_Zopp sy (Zpos my * 2 ^ (ey - ez))).
  assert (HS : sv (S754_finite sx mx ex) + sv (S754_finite sy my ey)
               = M * 2 ^ (ez - fine)).
  { unfold M, sv, cond_Zopp. change IntDef.Z.opp with Z.opp.
    replace (ex - fine) with (ex - ez + (ez - fine)) by lia.
    replace (ey - fine) with (ey - ez + (ez - fine)) by lia.
    rewrite !Z.pow_add_r by (unfold ez, fine; lia).
    destruct sx, sy; ring. }
  rewrite HS. pose proof (pow2_pos (ez - fine) ltac:(unfold fine; lia)) as P.
  unfold binary_normalize.
  destruct M as [ | p | p].
  - reflexivity.
  - rewrite binary_round_Round by (unfold fine; lia).
    destruct (Zpos p * 2 ^ (ez - fine)) as [ | p' | p'] eqn:E; try nia.
    reflexivity.
  - rewrite binary_round_Round by (unfold fine; lia).
    destruct (Zneg p * 2 ^ (ez - fine)) as [ | p' | p'] eqn:E; try nia.
    f_equal. change (Zpos p') with (- Zneg p'). rewrite <- E. lia.
Qed.

(** The order of valid numbers is the order of their values *)

Lemma lex_compare (m1 m2 : positive) (e1 e2 : Z) :
  SpecFloat.bounded prec emax m1 e1 = true -> SpecFloat.bounded prec emax m2 e2 = true ->
  match e1 ?= e2 with
  | Lt => Lt
  | Gt => Gt
  | Eq => (m1 ?= m2)%positive
  end = (Zpos m1 * 2 ^ (e1 - fine) ?= Zpos m2 * 2 ^ (e2 - fine)).
Proof.
  intros V1 V2.
  destruct (lex_mag m1 m2 e1 e2 V1 V2) as [_ H12].
  destruct (lex_mag m2 m1 e2 e1 V2 V1) as [_ H21].
  symmetry.
  destruct (Z.compare_spec e1 e2) as [E | L | G].
  - subst e2. change (m1 ?= m2)%positive with (Zpos m1 ?= Zpos m2).
    destruct (Z.compare_spec (Zpos m1) (Zpos m2)) as [E' | L' | G'].
    + apply Z.compare_eq_iff. now rewrite E'.
    + apply Z.compare_lt_iff. apply H12. lia.
    + apply Z.compare_gt_iff. apply H21. lia.
  - apply Z.compare_lt_iff. apply H12. lia.
  - apply Z.compare_gt_iff. apply H21. lia.
Qed.

Lemma SFcompare_sv (X Y : spec_float) :
  valid_binary X = true -> valid_binary Y = true ->
  SFfinite X -> SFfinite Y ->
  SFcompare X Y = Some (sv X ?= sv Y).
Proof.
  destruct X as [sx | sx | | sx mx ex], Y as [sy | sy | | sy my ey];
    simpl valid_binary; intros VX VY FX FY;
    try (exfalso; exact FX); try (exfalso; exact FY).
  - reflexivity.
  - destruct (bounded_spec my ey VY) as (He & _).
    pose proof (mag_pos sy my ey ltac:(unfold fine; lia)) as P. unfold mag in P.
    unfold SFcompare, sv. f_equal. symmetry.
    destruct sy; [apply Z.compare_gt_iff | apply Z.compare_lt_iff]; lia.
  - destruct (bounded_spec mx ex VX) as (He & _).
    pose proof (mag_pos sx mx ex ltac:(unfold fine; lia)) as P. unfold mag in P.
    unfold SFcompare, sv. f_equal. symmetry.
    destruct sx; [apply Z.compare_lt_iff | apply Z.compare_gt_iff]; lia.
  - destruct (bounded_spec mx ex VX) as (Hex & _).
    destruct (bounded_spec my ey VY) as (Hey & _).
    pose proof (mag_pos sx mx ex ltac:(unfold fine; lia)) as Px. unfold mag in Px.
    pose proof (mag_pos sy my ey ltac:(unfold fine; lia)) as Py. unfold mag in Py.
    unfold SFcompare, sv.
    change (PosDef.Pos.compare_cont Eq mx my) with (mx ?= my)%positive.
    change IntDef.Z.compare with Z.compare.
    destruct sx, sy; f_equal.
    + rewrite Z.compare_opp.
      rewrite <- (lex_compare my mx ey ex VY VX).
      rewrite (Z.compare_antisym ey ex), (Pos.compare_antisym my mx).
      destruct (ey ?= ex); simpl; try reflexivity.
      destruct (my ?= mx)%positive; reflexivity.
    + symmetry. apply Z.compare_lt_iff. lia.
    + symmetry. apply Z.compare_gt_iff. lia.
    + apply lex_compare; assumption.
Qed.

Lemma SFleb_sv (X Y : spec_float) :
  valid_binary X = true -> valid_binary Y = true ->
  SFfinite X -> SFfinite Y ->
  SFleb X Y = true -> sv X <= sv Y.
Proof.
  intros VX VY FX FY. unfold SFleb. rewrite (SFcompare_sv X Y VX VY FX FY).
  destruct (Z.compare_spec (sv X) (sv Y)); try discriminate; lia.
Qed.

Lemma SFltb_sv (X Y : spec_float) :
  valid_binary X = true -> valid_binary Y = true ->
  SFfinite X -> SFfinite Y ->
  SFltb X Y = true -> sv X < sv Y.
Proof.
  intros VX VY FX FY. unfold SFltb. rewrite (SFcompare_sv X Y VX VY FX FY).
  destruct (Z.compare_spec (sv X) (sv Y)); try discriminate; lia.
Qed.

(** Rounded results and the order *)

Lemma Round_signed (s : bool) (A B : Z) :
  0 <= A -> 0 < B -> SFsigned s (Round s A B).
Proof.
  intros HA HB. pose proof (RndV_bound A B HA HB) as Hb.
  unfold Round, norm, pack. destruct (RndV A B) as [m E]. cbn [fst snd] in *.
  destruct (Z.eqb_spec m (2 ^ 53)) as [-> | Hn]; cbn [fst snd].
  - destruct (E + 1 <=? 971); reflexivity.
  - destruct m as [ | p | p]; try lia; try reflexivity.
    destruct (E <=? 971); reflexivity.
Qed.

Lemma SFleb_zero_l (s : bool) (Z : spec_float) :
  SFsigned false Z -> SFleb (S754_zero s) Z = true.
Proof.
  destruct Z as [sz | sz | | sz mz ez]; simpl; try tauto; intros ->; reflexivity.
Qed.

Lemma SFleb_inf_r (Z : spec_float) :
  SFsigned false Z -> SFleb Z (S754_infinity false) = true.
Proof.
  destruct Z as [sz | sz | | sz mz ez]; simpl; try tauto; intros ->; reflexivity.
Qed.

(** Monotonicity of the three operations *)

Lemma SFadd_pos (mx : positive) (ex : Z) (Y : spec_float) :
  SpecFloat.bounded prec emax mx ex = true -> valid_binary Y = true -> SFfinite Y ->
  0 < mag (S754_finite false mx ex) + sv Y ->
  SFadd prec emax (S754_finite false mx ex) Y
  = Round false (mag (S754_finite false mx ex) + sv Y) 1.
Proof.
  intros VX VY FY HS.
  destruct Y as [sy | sy | | sy my ey]; try (exfalso; exact FY).
  - cbn [SFadd sv]. rewrite Z.add_0_r. symmetry. now apply Round_valid.
  - rewrite SFadd_Round by assumption.
    change (sv (S754_finite false mx ex)) with (mag (S754_finite false mx ex)).
    destruct (mag (S754_finite false mx ex) + sv (S754_finite sy my ey));
      try lia. reflexivity.
Qed.

Lemma SFadd_mono (mx : positive) (ex : Z) (Y1 Y2 : spec_float) :
  SpecFloat.bounded prec emax mx ex = true ->
  valid_binary Y1 = true -> valid_binary Y2 = true ->
  SFltb (S754_finite true mx ex) Y1 = true -> SFleb Y1 Y2 = true ->
  SFsigned false (SFadd prec emax (S754_finite false mx ex) Y1)
  /\ SFsigned false (SFadd prec emax (S754_finite false mx ex) Y2)
  /\ SFleb (SFadd prec emax (S754_finite false mx ex) Y1)
           (SFadd prec emax (S754_finite false mx ex) Y2) = true.
Proof.
  intros VX V1 V2 Hlt Hle.
  destruct (bounded_spec mx ex VX) as (Hex & _).
  pose proof (mag_pos false mx ex ltac:(unfold fine; lia)) as PX.
  assert (F1 : SFfinite Y1 \/ Y1 = S754_infinity false).
  { destruct Y1 as [s | [ | ] | | s m e]; simpl; try tauto; discriminate. }
  destruct F1 as [F1 | ->].
  - assert (S1 : 0 < mag (S754_finite false mx ex) + sv Y1).
    { pose proof (SFltb_sv (S754_finite true mx ex) Y1 VX V1 I F1 Hlt) as H.
      unfold sv at 1 in H. unfold mag. lia. }
    rewrite (SFadd_pos mx ex Y1 VX V1 F1 S1).
    assert (F2 : SFfinite Y2 \/ Y2 = S754_infinity false).
    { destruct Y1 as [s1 | s1 | | s1 m1 e1]; try (exfalso; exact F1);
        destruct Y2 as [s | [ | ] | | s m e]; simpl; try tauto; discriminate. }
    destruct F2 as [F2 | ->].
    + assert (S2 : mag (S754_finite false mx ex) + sv Y1
                   <= mag (S754_finite false mx ex) + sv Y2).
      { pose proof (SFleb_sv Y1 Y2 V1 V2 F1 F2 Hle). lia. }
      rewrite (SFadd_pos mx ex Y2 VX V2 F2 ltac:(lia)).
      repeat split; try (apply Round_signed; lia).
      apply Round_mono; lia.
    + cbn [SFadd]. repeat split; try (apply Round_signed; lia).
      apply SFleb_inf_r, Round_signed; lia.
  - assert (Y2 = S754_infinity false) as ->.
    { destruct Y2 as [s | [ | ] | | s m e]; try discriminate. reflexivity. }
    cbn [SFadd]. repeat split; reflexivity.
Qed.

Lemma SFdiv_anti (mx : positive) (ex : Z) (D1 D2 : spec_float) :
  SpecFloat.bounded prec emax mx ex = true ->
  valid_binary D1 = true -> valid_binary D2 = true ->
  SFsigned false D1 -> SFsigned false D2 -> SFleb D1 D2 = true ->
  SFsigned false (SFdiv prec emax (S754_finite false mx ex) D1)
  /\ SFsigned false (SFdiv prec emax (S754_finite false mx ex) D2)
  /\ SFleb (SFdiv prec emax (S754_finite false mx ex) D2)
           (SFdiv prec emax (S754_finite false mx ex) D1) = true.
Proof.
  intros VX V1 V2 G1 G2 Hle.
  destruct (bounded_spec mx ex VX) as (Hex & _).
  pose proof (mag_pos false mx ex ltac:(unfold fine; lia)) as PX.
  pose proof (pow2_pos (- fine) ltac:(unfold fine; lia)) as PF.
  assert (PA : 0 <= mag (S754_finite false mx ex) * 2 ^ (- fine)) by nia.
  destruct D1 as [s1 | s1 | | s1 m1 e1]; simpl in G1; try tauto; subst s1;
    destruct D2 as [s2 | s2 | | s2 m2 e2]; simpl in G2; try tauto; subst s2;
    try discriminate Hle;
    try rewrite !SFdiv_Round by assumption; cbn [SFdiv xorb].
  - repeat split; reflexivity.
  - repeat split; reflexivity.
  - destruct (bounded_spec m2 e2 V2) as (He2 & _).
    pose proof (mag_pos false m2 e2 ltac:(unfold fine; lia)).
    repeat split; try (apply Round_signed; lia).
    apply SFleb_inf_r, Round_signed; lia.
  - repeat split; reflexivity.
  - destruct (bounded_spec m1 e1 V1) as (He1 & _).
    pose proof (mag_pos false m1 e1 ltac:(unfold fine; lia)).
    repeat split; try (apply Round_signed; lia).
    apply SFleb_zero_l, Round_signed; lia.
  - destruct (bounded_spec m1 e1 V1) as (He1 & _).
    destruct (bounded_spec m2 e2 V2) as (He2 & _).
    pose proof (mag_pos false m1 e1 ltac:(unfold fine; lia)).
    pose proof (mag_pos false m2 e2 ltac:(unfold fine; lia)).
    pose proof (SFleb_sv _ _ V1 V2 I I Hle) as Hv.
    change (sv (S754_finite false m1 e1)) with (mag (S754_finite false m1 e1)) in Hv.
    change (sv (S754_finite false m2 e2)) with (mag (S754_finite false m2 e2)) in Hv.
    repeat split; try (apply Round_signed; lia).
    apply Round_mono; try lia. nia.
Qed.

Lemma SFmul_mono (X1 X2 Y1 Y2 : spec_float) :
  valid_binary X1 = true -> valid_binary X2 = true ->
  valid_binary Y1 = true -> valid_binary Y2 = true ->
  SFsigned false X1 -> SFsigned false X2 ->
  SFsigned false Y1 -> SFsigned false Y2 ->
  SFleb X1 X2 = true -> SFleb Y1 Y2 = true ->
  SFmul prec emax X1 Y1 <> S754_nan -> SFmul prec emax X2 Y2 <> S754_nan ->
  SFleb (SFmul prec emax X1 Y1) (SFmul prec emax X2 Y2) = true.
Proof.
  intros VX1 VX2 VY1 VY2 GX1 GX2 GY1 GY2 HX HY N1 N2.
  pose proof (pow2_pos (- fine) ltac:(unfold fine; lia)) as PF.
  assert (NP : forall m e, SpecFloat.bounded prec emax m e = true ->
                 0 < mag (S754_finite false m e)).
  { intros m e V. destruct (bounded_spec m e V) as (He & _).
    apply mag_pos. unfold fine. lia. }
  destruct X1 as [a | a | | a mx1 ex1]; simpl in GX1; try tauto; subst a;
    destruct X2 as [a | a | | a mx2 ex2]; simpl in GX2; try tauto; subst a;
    try discriminate HX;
    destruct Y1 as [a | a | | a my1 ey1]; simpl in GY1; try tauto; subst a;
    destruct Y2 as [a | a | | a my2 ey2]; simpl in GY2; try tauto; subst a;
    try discriminate HY;
    try (exfalso; apply N1; reflexivity);
    try (exfalso; apply N2; reflexivity);
    try rewrite !SFmul_Round by assumption; cbn [SFmul xorb];
    try reflexivity;
    try (apply SFleb_zero_l, Round_signed; [ | lia];
         apply Z.mul_nonneg_nonneg; apply Z.lt_le_incl, NP; assumption);
    try (apply SFleb_inf_r, Round_signed; [ | lia];
         apply Z.mul_nonneg_nonneg; apply Z.lt_le_incl, NP; assumption).
  pose proof (NP _ _ VX1). pose proof (NP _ _ VX2).
  pose proof (NP _ _ VY1). pose proof (NP _ _ VY2).
  pose proof (SFleb_sv _ _ VX1 VX2 I I HX) as Hx.
  pose proof (SFleb_sv _ _ VY1 VY2 I I HY) as Hy.
  change (sv (S754_finite false mx1 ex1)) with (mag (S754_finite false mx1 ex1)) in Hx.
  change (sv (S754_finite false mx2 ex2)) with (mag (S754_finite false mx2 ex2)) in Hx.
  change (sv (S754_finite false my1 ey1)) with (mag (S754_finite false my1 ey1)) in Hy.
  change (sv (S754_finite false my2 ey2)) with (mag (S754_finite false my2 ey2)) in Hy.
  set (a1 := mag (S754_finite false mx1 ex1)) in *.
  set (a2 := mag (S754_finite false mx2 ex2)) in *.
  set (b1 := mag (S754_finite false my1 ey1)) in *.
  set (b2 := mag (S754_finite false my2 ey2)) in *.
  assert (Hp : a1 * b1 <= a2 * b2) by nia.
  assert (Hp0 : 0 <= a1 * b1) by nia.
  apply Round_mono; try lia.
  apply Z.mul_le_mono_nonneg_r; lia.
Qed.

End Binary64Rounding.

(** *** Binary64: the vertical acceleration and the altitude *)

Section Binary64Gravity.

Local Open Scope float_scope.

Lemma SFltb_leb (X Y : spec_float) : SFltb X Y = true -> SFleb X Y = true.
Proof.
  unfold SFltb, SFleb. destruct (SFcompare X Y) as [[ | | ] | ]; easy.
Qed.

Lemma SFleb_refl (X : spec_float) : X <> S754_nan -> SFleb X X = true.
Proof. intros H. unfold SFleb. now rewrite SFcompare_refl. Qed.

Lemma binary_round_aux_abs (s : bool) (m e : Z) (l : location) :
  SFabs (binary_round_aux prec emax s m e l)
  = binary_round_aux prec emax false m e l.
Proof.
  unfold binary_round_aux.
  destruct (shr_fexp prec emax m e l) as [mrs' e'].
  destruct (shr_fexp prec emax _ e' loc_Exact) as [mrs'' e''].
  destruct (shr_m mrs'') as [ | p | p]; try reflexivity.
  destruct (e'' <=? emax - prec)%Z; reflexivity.
Qed.

(** The magnitude of a product is the product of the magnitudes. *)
Lemma SFabs_mul (X Y : spec_float) :
  SFabs (SFmul prec emax X Y) = SFmul prec emax (SFabs X) (SFabs Y).
Proof.
  destruct X as [sx | sx | | sx mx ex], Y as [sy | sy | | sy my ey];
    try reflexivity.
  apply binary_round_aux_abs.
Qed.

Lemma SFabs_signed (X : spec_float) : SFsigned false X -> SFabs X = X.
Proof.
  destruct X as [s | s | | s m e]; simpl; try tauto; intros ->; reflexivity.
Qed.

Lemma SFmul_finite_l_signed (m : positive) (e : Z) (Q : spec_float) :
  SFsigned false Q ->
  SFsigned false (SFmul prec emax (S754_finite false m e) Q).
Proof.
  intros HQ.
  destruct (SFmul_signed false false (S754_finite false m e) Q eq_refl HQ)
    as [E | H]; [ | exact H].
  exfalso. revert E.
  destruct Q as [s | s | | s mq eq]; simpl in HQ; try tauto; try discriminate.
  apply binary_round_aux_not_nan. lia.
Qed.

(** In binary64 a higher altitude never gives a stronger gravity: the sum
    [re + h], the quotient [re / (re + h)] and the two products are rounded
    monotonically. *)
Lemma binary64_computeVertAcc_monotone (s1 s2 : State float) :
  (- re <? vertPos s1) = true ->
  (vertPos s1 <? vertPos s2) = true ->
  (abs (computeVertAcc s2) <=? abs (computeVertAcc s1)) = true.
Proof.
  intros H1 H12.
  destruct binary64_re_g as (mr & er & mg & eg & Ere & Eg).
  assert (Vre : SpecFloat.bounded prec emax mr er = true).
  { pose proof (Prim2SF_valid re) as V. rewrite Ere in V. exact V. }
  assert (Vg : SpecFloat.bounded prec emax mg eg = true).
  { pose proof (Prim2SF_valid g) as V. rewrite Eg in V. exact V. }
  set (h1 := vertPos s1) in *. set (h2 := vertPos s2) in *.
  rewrite ltb_spec, opp_spec, Ere in H1. cbn [SFopp negb] in H1.
  rewrite ltb_spec in H12. apply SFltb_leb in H12.
  (* the sums *)
  assert (Ed : forall h, Prim2SF (re + h)
                         = SFadd prec emax (S754_finite false mr er) (Prim2SF h)).
  { intros h. now rewrite add_spec, Ere. }
  destruct (SFadd_mono mr er (Prim2SF h1) (Prim2SF h2) Vre
              (Prim2SF_valid h1) (Prim2SF_valid h2) H1 H12) as (Gd1 & Gd2 & Hd).
  rewrite <- (Ed h1) in Gd1, Hd. rewrite <- (Ed h2) in Gd2, Hd.
  (* the quotients *)
  assert (Eq : forall d, Prim2SF (re / d)
                         = SFdiv prec emax (S754_finite false mr er) (Prim2SF d)).
  { intros d. now rewrite div_spec, Ere. }
  destruct (SFdiv_anti mr er (Prim2SF (re + h1)) (Prim2SF (re + h2)) Vre
              (Prim2SF_valid _) (Prim2SF_valid _) Gd1 Gd2 Hd) as (Gq1 & Gq2 & Hq).
  rewrite <- (Eq (re + h1)) in Gq1, Hq. rewrite <- (Eq (re + h2)) in Gq2, Hq.
  set (q1 := re / (re + h1)) in *. set (q2 := re / (re + h2)) in *.
  (* the first products *)
  assert (Et : forall q, SFsigned false (Prim2SF q) ->
                 Prim2SF (abs (g * q))
                 = SFmul prec emax (S754_finite false mg eg) (Prim2SF q)).
  { intros q Gq. rewrite abs_spec, mul_spec. unfold SF64mul.
    rewrite SFabs_mul, Eg, (SFabs_signed _ Gq). reflexivity. }
  assert (Gt : forall q, SFsigned false (Prim2SF q) ->
                 SFsigned false (Prim2SF (abs (g * q)))).
  { intros q Gq. rewrite (Et q Gq). now apply SFmul_finite_l_signed. }
  assert (Ht : SFleb (Prim2SF (abs (g * q2))) (Prim2SF (abs (g * q1))) = true).
  { rewrite (Et q1 Gq1), (Et q2 Gq2).
    apply SFmul_mono; try exact Vg; try apply Prim2SF_valid;
      try exact Gq1; try exact Gq2; try reflexivity; try exact Hq.
    - apply SFleb_refl. discriminate.
    - apply (SFsigned_not_nan false). now apply SFmul_finite_l_signed.
    - apply (SFsigned_not_nan false). now apply SFmul_finite_l_signed. }
  (* the second products *)
  assert (Er : forall q, SFsigned false (Prim2SF q) ->
                 Prim2SF (abs (g * q * q))
                 = SFmul prec emax (Prim2SF (abs (g * q))) (Prim2SF q)).
  { intros q Gq. rewrite abs_spec, mul_spec. unfold SF64mul.
    rewrite SFabs_mul, (SFabs_signed _ Gq), <- abs_spec. reflexivity. }
  assert (Nr : forall q, SFsigned false (Prim2SF q) ->
                 SFmul prec emax (Prim2SF (abs (g * q))) (Prim2SF q) <> S754_nan).
  { intros q Gq. rewrite (Et q Gq).
    apply SFmul_mul_not_nan. now apply (SFsigned_not_nan false). }
  rewrite leb_spec. unfold computeVertAcc. cbn [add mul div Binary64].
  fold h1 h2 q1 q2. rewrite (Er q1 Gq1), (Er q2 Gq2).
  apply SFmul_mono; try apply Prim2SF_valid; try exact Ht; try exact Hq;
    try exact Gq1; try exact Gq2; try (now apply Gt); now apply Nr.
Qed.

End Binary64Gravity.

(** *** Binary64: the horizontal motion *)

Section Binary64Horizontal.

Local Open Scope float_scope.

Lemma is_finite_iff (x : float) :
  is_finite x = true <-> SFfinite (Prim2SF x).
Proof.
  split; [apply is_finite_true | ].
  unfold is_finite, is_nan, is_infinity. rewrite !eqb_spec, abs_spec.
  change (Prim2SF infinity) with (S754_infinity false).
  destruct (Prim2SF x) as [s | s | | s m e] eqn:E; simpl; try tauto; intros _.
  unfold SFeqb at 1. rewrite SFcompare_refl by discriminate. reflexivity.
Qed.

Lemma Round_finite_sign (s s' : bool) (A B : Z) :
  SFfinite (Round s A B) -> SFfinite (Round s' A B).
Proof.
  unfold Round, pack. destruct (fst (norm (RndV A B))); simpl; try tauto.
  destruct (snd (norm (RndV A B)) <=? 971)%Z; simpl; tauto.
Qed.

Lemma SFleb_finite_r (X : spec_float) (s : bool) (m : positive) (e : Z) :
  SFsigned false X -> SFleb X (S754_finite s m e) = true -> SFfinite X.
Proof.
  destruct X as [sx | sx | | sx mx ex]; simpl; try tauto.
  intros ->. destruct s; discriminate.
Qed.

(** Half of a finite number is finite. *)
Lemma SFdiv_two_finite (X : spec_float) :
  valid_binary X = true -> SFfinite X ->
  SFfinite (SFdiv prec emax X (Prim2SF 2)).
Proof.
  intros V F.
  change (Prim2SF 2) with (S754_finite false 4503599627370496 (-51)).
  destruct X as [s | s | | s m e]; simpl in F; try tauto; try exact I.
  rewrite SFdiv_Round by (exact V || reflexivity).
  apply (Round_finite_sign false).
  assert (Hm : (0 < mag (S754_finite s m e))%Z).
  { apply mag_pos. pose proof (bounded_spec m e V). unfold fine. lia. }
  assert (H2 : (2 ^ (- fine) <= mag (S754_finite false 4503599627370496 (-51)))%Z)
    by (vm_compute; discriminate).
  assert (Hp : (0 < 2 ^ (- fine))%Z) by (vm_compute; reflexivity).
  apply (SFleb_finite_r _ false m e).
  - apply Round_signed; nia.
  - rewrite <- (Round_valid false m e V).
    change (mag (S754_finite false m e)) with (mag (S754_finite s m e)).
    apply Round_mono; nia.
Qed.

Lemma binary64_half_finite (x : float) :
  is_finite x = true -> is_finite (x / 2) = true.
Proof.
  rewrite !is_finite_iff, div_spec. apply SFdiv_two_finite, Prim2SF_valid.
Qed.

(** Zeros stay zeros under the operations of the average. *)
Lemma unchanged_zero (x' x : float) :
  unchanged x' x -> SFzero (Prim2SF x) -> SFzero (Prim2SF x').
Proof.
  intros [E _]. rewrite eqb_spec in E. revert E.
  destruct (Prim2SF x) as [s | s | | s m e]; simpl; try tauto.
  destruct (Prim2SF x') as [s' | s' | | s' m' e']; simpl; try tauto;
    try discriminate; destruct s'; discriminate.
Qed.

Lemma add_zero_zero (x y : float) :
  SFzero (Prim2SF x) -> SFzero (Prim2SF y) -> SFzero (Prim2SF (x + y)).
Proof.
  rewrite add_spec. unfold SF64add.
  destruct (Prim2SF x) as [sx | sx | | sx mx ex],
           (Prim2SF y) as [sy | sy | | sy my ey]; simpl; try tauto.
  destruct sx, sy; intros _ _; exact I.
Qed.

Lemma div_zero_finite (z x : float) :
  SFzero (Prim2SF z) -> is_zero x = false -> is_finite x = true ->
  SFzero (Prim2SF (z / x)).
Proof.
  intros Hz Hn Hx. apply is_zero_false in Hn. apply is_finite_true in Hx.
  rewrite div_spec. unfold SF64div.
  destruct (Prim2SF x) as [sx | sx | | sx mx ex],
           (Prim2SF z) as [sz | sz | | sz mz ez];
    simpl in *; tauto.
Qed.

(** With a finite time step the horizontal velocity of every stage is the
    one of the state: the product of the zero acceleration and the time step
    (or its half) is a zero. *)
Lemma binary64_rk4Stages_horzVel (state : State float) (deltaTime : float) :
  is_finite deltaTime = true -> is_nan (horzVel state) = false ->
  let '(k1, k2, k3, k4) := rk4Stages state deltaTime in
  d_horzVel k1 = horzVel state
  /\ unchanged (d_horzVel k2) (horzVel state)
  /\ unchanged (d_horzVel k3) (horzVel state)
  /\ unchanged (d_horzVel k4) (horzVel state).
Proof.
  intros Hdt Hv. pose proof (binary64_half_finite _ Hdt) as Hh.
  unfold rk4Stages, evaluate, evaluateAt, computeHorzAcc.
  cbn [d_horzVel horzAcc horzVel].
  destruct binary64_constants as (_ & _ & -> & _ & _ & -> & _).
  cbn [add mul div Binary64].
  repeat split; try (intros _; reflexivity);
    try (apply add_zero_unchanged; [exact Hv | ]);
    try (apply mul_zero_finite; [exact I | assumption]).
Qed.

(** The average of the stage velocities, for a horizontal velocity that is
    not a zero. *)
Lemma binary64_deltaHorzVel (state : State float) (deltaTime : float) :
  is_finite deltaTime = true -> is_nan (horzVel state) = false ->
  is_zero (horzVel state) = false ->
  d_horzVel (rk4Deltas state deltaTime)
  = (horzVel state + 2 * (horzVel state + horzVel state) + horzVel state) / 6.
Proof.
  intros Hdt Hv Hz.
  pose proof (binary64_rk4Stages_horzVel state deltaTime Hdt Hv) as Hs.
  unfold rk4Deltas. destruct (rk4Stages state deltaTime) as [[[k1 k2] k3] k4].
  destruct Hs as (E1 & [_ E2] & [_ E3] & [_ E4]).
  cbn [d_horzVel]. rewrite E1, (E2 Hz), (E3 Hz), (E4 Hz).
  destruct binary64_constants as (_ & _ & _ & _ & _ & -> & -> & _).
  reflexivity.
Qed.

(** The average of the stage velocities is a zero when the horizontal
    velocity is. *)
Lemma binary64_deltaHorzVel_zero (state : State float) (deltaTime : float) :
  is_finite deltaTime = true -> is_zero (horzVel state) = true ->
  SFzero (Prim2SF (d_horzVel (rk4Deltas state deltaTime))).
Proof.
  intros Hdt Hz. apply is_zero_true in Hz.
  assert (Hv : is_nan (horzVel state) = false).
  { apply is_nan_false_iff. intros E. rewrite E in Hz. exact Hz. }
  pose proof (binary64_rk4Stages_horzVel state deltaTime Hdt Hv) as Hs.
  unfold rk4Deltas. destruct (rk4Stages state deltaTime) as [[[k1 k2] k3] k4].
  destruct Hs as (E1 & U2 & U3 & U4).
  apply unchanged_zero in U2, U3, U4; try exact Hz.
  cbn [d_horzVel]. rewrite E1.
  destruct binary64_constants as (_ & _ & _ & _ & _ & -> & -> & _).
  cbn [add mul div Binary64].
  apply div_zero_finite; try reflexivity.
  repeat apply add_zero_zero; try assumption.
  apply mul_finite_zero; [reflexivity | ]. now apply add_zero_zero.
Qed.

End Binary64Horizontal.

(** ** The claims *)

Section Claims.

Local Open Scope float_scope.

(** *** C1: the integration step *)

(** C1.  [rk4] is the operation Step of the specification:
    [k1 = evaluate s], [k2 = evaluateAt s (dt/2) k1],
    [k3 = evaluateAt s (dt/2) k2], [k4 = evaluateAt s dt k3], each of the four
    components combined as [(k1 + 2*k2 + 2*k3 + k4)/6], then
    [pos += avgVel*dt] and [vel += avgAcc*dt] on both axes.  This holds in
    exact arithmetic; in binary64 it holds with the sum of the average
    grouped as [k1 + 2*(k2 + k3) + k4], which is the same real number. *)
Theorem rk4_is_Step :
  (forall (state : State R) (dt : R), rk4 state dt = Step state dt)
  /\ (forall (state : State float) (dt : float),
        rk4 state dt = StepWith groupedAverage state dt)
  /\ (forall k1 k2 k3 k4 : R,
        groupedAverage k1 k2 k3 k4
        = ((k1 + 2 * k2 + 2 * k3 + k4) / 6)%R).
Proof.
  split; [exact exact_rk4_Step | ].
  split; [intros state dt; apply rk4_StepWith_grouped | ].
  intros k1 k2 k3 k4. rewrite exact_groupedAverage.
  unfold weightedAverage. cbn [add mul div Exact].
  now rewrite exact_two, exact_six.
Qed.

(** *** C2: the scenario *)

(** C2, as amended.  From altitude 0, velocity 100 m/s, angle 45 degrees and
    time step 0.01 s, the state after one step has, in exact arithmetic and
    up to a relative error of 1e-6, [vertVel = 70.7107 + g*0.01] (which is
    70.6126), [horzVel = 70.7107] and [horzPos = 0.707107]. *)
Theorem scenario_after_one_step (tf : R) :
  let p1 := afterOneStep (scenario tf) in
  (approx 1e-6 (vertVel p1) (70.7107 + g * 0.01)
   /\ approx 1e-6 (horzVel p1) 70.7107
   /\ approx 1e-6 (horzPos p1) 0.707107)%R.
Proof.
  intros p1. destruct (exact_scenario_step tf) as (Hvv & Hhv & Hhp).
  fold p1 in Hvv, Hhv, Hhp. rewrite exact_g.
  repeat split; apply approx_iff; lra.
Qed.

(** C2, the claim as stated fails: none of its three values is reached, even
    up to a relative error of 1e-4, which is a hundred times more than the
    six digits it quotes allow. *)
Lemma scenario_after_one_step_not_as_claimed :
  let p1 := afterOneStep (scenario 1) in
  (~ approx 1e-4 (vertVel p1) (70.6996 - g * 0.01)
   /\ ~ approx 1e-4 (horzVel p1) 70.6996
   /\ ~ approx 1e-4 (horzPos p1) 0.706996)%R.
Proof.
  intros p1. destruct (exact_scenario_step 1%R) as (Hvv & Hhv & Hhp).
  fold p1 in Hvv, Hhv, Hhp. rewrite exact_g.
  repeat split; intros H; apply approx_iff in H; lra.
Qed.

(** *** C3: the vertical acceleration *)

(** C3.  [computeVertAcc] returns [g * (re/(re+h))^2] with [h] the vertical
    position, [g = -9.80665] (negative) and [re = 6371000].  In binary64 the
    constants are the doubles nearest to these and the result is the double
    [(g * (re / (re + h))) * (re / (re + h))], every operation rounded once,
    for every state; it is a number, not NaN, at every finite [h].  In exact
    arithmetic the same expression is [g * (re/(re+h))^2]; for [h > -re] the
    denominator is positive, so the quotient is defined, and the result is
    negative.  The function is total: it has no error result. *)
Theorem computeVertAcc_formula (state : State R) :
  (computeVertAcc state = g * (re / (re + vertPos state)) ^ 2)%R
  /\ ((g : R) = -9.80665 /\ (g : R) < 0 /\ (re : R) = 6371000)%R
  /\ ((g : float) = -9.80665 /\ (re : float) = 6371000)
  /\ (forall state' : State float,
        computeVertAcc state'
        = -9.80665 * (6371000 / (6371000 + vertPos state'))
          * (6371000 / (6371000 + vertPos state')))
  /\ (forall state' : State float,
        is_finite (vertPos state') = true ->
        is_nan (computeVertAcc state') = false)
  /\ ((- re < vertPos state)%R ->
      (0 < re + vertPos state)%R /\ (computeVertAcc state < 0)%R).
Proof.
  split; [apply exact_computeVertAcc | ].
  split; [rewrite exact_g, exact_re; repeat split; lra | ].
  split; [split; apply binary64_constants | ].
  split.
  { intros state'. unfold computeVertAcc. cbn [add mul div Binary64].
    destruct binary64_constants as (-> & -> & _). reflexivity. }
  split; [exact binary64_computeVertAcc_not_nan | ].
  apply exact_computeVertAcc_neg.
Qed.

(** At sea level the denominator is [re] and the acceleration is negative;
    in binary64 it is [g] itself. *)
Lemma computeVertAcc_formula_witness :
  ((0 < re + vertPos (mkState 0 0 0 0))%R
   /\ (computeVertAcc (mkState 0 0 0 0) < 0)%R)
  /\ is_nan (computeVertAcc (mkState 0 0 0 0)) = false
  /\ computeVertAcc (mkState 0 0 0 0) = -9.80665.
Proof.
  destruct (computeVertAcc_formula (mkState 0 0 0 0)%R)
    as (_ & _ & _ & Hf & Hnan & Hneg).
  split; [ | split].
  - apply Hneg. cbn [vertPos]. rewrite exact_re. lra.
  - apply Hnan. reflexivity.
  - rewrite Hf. vm_compute. reflexivity.
Defined.

(** *** C4: the horizontal acceleration *)

(** C4.  [computeHorzAcc] returns 0 whatever the state, in binary64 (where
    it is [+0]) and in exact arithmetic. *)
Theorem computeHorzAcc_zero :
  (forall state : State float, computeHorzAcc state = 0)
  /\ (forall state : State R, computeHorzAcc state = 0%R).
Proof.
  split; intros state; unfold computeHorzAcc.
  - apply binary64_constants.
  - apply exact_a.
Qed.

(** *** C5: the intermediate-stage derivative *)

(** C5.  In every arithmetic, [evaluateAt] is [evaluate] at the state that
    Euler's method reaches from the base state with the prior derivative: the
    velocities of the result are those of the intermediate state, and its
    accelerations are the physics model at the intermediate state. *)
Theorem evaluateAt_is_evaluate_after_euler
  {D : Type} {A : Arith D}
  (baseState : State D) (dt : D) (d : Derivative D) :
  let p := eulerAdvance baseState dt d in
  (vertPos p = vertPos baseState + d_vertVel d * dt
   /\ horzPos p = horzPos baseState + d_horzVel d * dt
   /\ vertVel p = vertVel baseState + vertAcc d * dt
   /\ horzVel p = horzVel baseState + horzAcc d * dt)%num
  /\ evaluateAt baseState dt d = evaluate p
  /\ d_vertVel (evaluateAt baseState dt d) = vertVel p
  /\ d_horzVel (evaluateAt baseState dt d) = horzVel p
  /\ vertAcc (evaluateAt baseState dt d) = computeVertAcc p
  /\ horzAcc (evaluateAt baseState dt d) = computeHorzAcc p.
Proof.
  intros p. subst p. split; [repeat split | ].
  rewrite evaluateAt_eulerAdvance. unfold evaluate.
  cbn [d_vertVel d_horzVel vertAcc horzAcc]. repeat split.
Qed.

(** *** C6: gravity and altitude *)

(** C6, as amended.  In binary64, for altitudes [-re < h1 < h2] the
    magnitude of the vertical acceleration at [h1] is greater than or equal
    to the one at [h2]: gravity never grows with altitude, and the two can
    be equal.  For the real-number formula that the code rounds, the order
    is strict. *)
Theorem computeVertAcc_weakens_with_altitude :
  (forall s1 s2 : State float,
      (- re <? vertPos s1) = true ->
      (vertPos s1 <? vertPos s2) = true ->
      (abs (computeVertAcc s2) <=? abs (computeVertAcc s1)) = true)
  /\ (forall s1 s2 : State R,
        (- re < vertPos s1)%R -> (vertPos s1 < vertPos s2)%R ->
        (Rabs (computeVertAcc s2) < Rabs (computeVertAcc s1))%R).
Proof.
  split.
  - exact binary64_computeVertAcc_monotone.
  - intros s1 s2 H1 H12. now apply exact_computeVertAcc_decreasing.
Qed.

(** Sea level and 1000 m, in binary64. *)
Lemma computeVertAcc_weakens_with_altitude_witness :
  (abs (computeVertAcc (mkState 1000 0 0 0))
   <=? abs (computeVertAcc (mkState 0 0 0 0))) = true.
Proof.
  apply (proj1 computeVertAcc_weakens_with_altitude
           (mkState 0 0 0 0) (mkState 1000 0 0 0));
    vm_compute; reflexivity.
Defined.

(** C6, the claim as stated fails in binary64: the altitudes 0 and 1e-20 are
    both above [-re] and in strict order, and the two accelerations are the
    same number, because [re + 1e-20] rounds to [re]. *)
Lemma computeVertAcc_not_strict_in_binary64 :
  ~ (forall s1 s2 : State float,
       (- re <? vertPos s1) = true ->
       (vertPos s1 <? vertPos s2) = true ->
       (abs (computeVertAcc s2) <? abs (computeVertAcc s1)) = true).
Proof.
  intros H.
  specialize (H (mkState 0 0 0 0) (mkState 1e-20 0 0 0)).
  assert (E : computeVertAcc (mkState 1e-20 0 0 0)
              = computeVertAcc (mkState 0 0 0 0))
    by (vm_compute; reflexivity).
  rewrite E in H.
  assert (F : (abs (computeVertAcc (mkState 0 0 0 0))
               <? abs (computeVertAcc (mkState 0 0 0 0))) = false)
    by (vm_compute; reflexivity).
  rewrite F in H. discriminate H; vm_compute; reflexivity.
Qed.

(** *** C7: a step of length zero *)

(** C7, as amended.  In exact arithmetic [rk4] with time step 0 returns the
    state it was given.  In binary64 it leaves all four fields unchanged, for
    every state with no NaN field whose averaged derivatives (of the same
    call) are finite. *)
Theorem rk4_zero_dt :
  (forall state : State R, rk4 state 0%R = state)
  /\ (forall state : State float,
        is_nan (vertPos state) = false ->
        is_nan (horzPos state) = false ->
        is_nan (vertVel state) = false ->
        is_nan (horzVel state) = false ->
        is_finite (d_vertVel (rk4Deltas state 0)) = true ->
        is_finite (vertAcc (rk4Deltas state 0)) = true ->
        is_finite (d_horzVel (rk4Deltas state 0)) = true ->
        unchanged (vertPos (rk4 state 0)) (vertPos state)
        /\ unchanged (horzPos (rk4 state 0)) (horzPos state)
        /\ unchanged (vertVel (rk4 state 0)) (vertVel state)
        /\ unchanged (horzVel (rk4 state 0)) (horzVel state)).
Proof.
  split.
  - intros state. apply exact_rk4_zero_dt.
  - intros state. apply binary64_rk4_zero_dt.
Qed.

(** A state 1000 m up, moving at 30 m/s upwards and 40 m/s forwards. *)
Lemma rk4_zero_dt_witness :
  let state := mkState 1000 5 30 40 in
  unchanged (vertPos (rk4 state 0)) (vertPos state)
  /\ unchanged (horzPos (rk4 state 0)) (horzPos state)
  /\ unchanged (vertVel (rk4 state 0)) (vertVel state)
  /\ unchanged (horzVel (rk4 state 0)) (horzVel state).
Proof.
  apply (proj2 rk4_zero_dt (mkState 1000 5 30 40));
    vm_compute; reflexivity.
Defined.

(** C7, the claim as stated fails in binary64: at the finite state with
    vertical velocity 1e308 the sum of two stage velocities overflows, the
    average is infinite, infinity times 0 is NaN, and [vertPos] becomes NaN. *)
Lemma rk4_zero_dt_overflow :
  let state := mkState 0 0 1e308 0 in
  (is_finite (vertPos state) && is_finite (horzPos state)
   && is_finite (vertVel state) && is_finite (horzVel state) = true)
  /\ d_vertVel (rk4Deltas state 0) = infinity
  /\ is_nan (vertPos (rk4 state 0)) = true
  /\ (vertPos (rk4 state 0) =? vertPos state) = false.
Proof. vm_compute. repeat split. Qed.

(** *** C8: the firing angle on the two acquisition paths *)

(** C8, at the failing input.  The prompting path delivers only angles that
    its check accepts.  With the five arguments [0 100 120 0.01 10] the
    positional path is taken, the firing angle is whatever [strtod] reads
    from the third argument, and the initial state is built from it.  When
    [strtod] reads the arguments as the numbers they spell, the angle is 120,
    which the check of the prompting path rejects, and [main] calls [rk4] on
    the state built from it. *)
Theorem positional_angle_unchecked
  (strtod : string -> float) (cin : list (Extraction float))
  (sin cos : float -> float) :
  let argv := ["trajectory"; "0"; "100"; "120"; "0.01"; "10"]%string in
  let q := positional strtod argv in
  (forall q', interactive cin = Some q' -> badAngle (firingAngle q') = false)
  /\ acquire strtod argv cin = Some q
  /\ firingAngle q = strtod "120"%string
  /\ vertVel (initialState sin cos q)
     = strtod "100"%string * sin (strtod "120"%string * deg2rad)
  /\ (strtod "0"%string = 0 -> strtod "120"%string = 120 ->
      strtod "10"%string = 10 ->
      badAngle (firingAngle q) = true
      /\ main strtod sin cos 1 argv cin
         = Some [loopBody (deltaTime q) (0, initialState sin cos q)]).
Proof.
  intros argv q.
  destruct (positional_unchecked strtod argv cin eq_refl) as [Hacq Hangle].
  fold q in Hacq, Hangle.
  split; [intros q' Hq'; now apply (interactive_checked cin q') | ].
  split; [exact Hacq | ]. split; [exact Hangle | ]. split; [reflexivity | ].
  intros H0 H120 H10. rewrite Hangle. cbn [nth argv]. rewrite H120.
  split; [vm_compute; reflexivity | ].
  unfold main. rewrite Hacq. f_equal.
  unfold simulate, drive, loopCond.
  cbn [fst snd finalTime q positional nth argv initialState vertPos initAlt].
  rewrite H0, H10.
  replace ((dec 0 1 <? 10)%num && (0 >=? dec 0 1)%num) with true
    by (vm_compute; reflexivity).
  destruct binary64_constants as (_ & _ & _ & _ & _ & _ & _ & _ & -> & _).
  reflexivity.
Qed.

(** The failing input, with a [strtod] that reads the five arguments as the
    numbers they spell, and the sine and cosine of 120 degrees. *)
Lemma positional_angle_unchecked_witness :
  let strtod := fun s : string =>
    if (s =? "120")%string then 120
    else if (s =? "100")%string then 100
    else if (s =? "0.01")%string then 0.01
    else if (s =? "10")%string then 10
    else 0 in
  let sin := fun _ : float => 0.8660254037844387 in
  let cos := fun _ : float => -0.4999999999999998 in
  let argv := ["trajectory"; "0"; "100"; "120"; "0.01"; "10"]%string in
  let q := positional strtod argv in
  badAngle (firingAngle q) = true
  /\ main strtod sin cos 1 argv []
     = Some [loopBody (deltaTime q) (0, initialState sin cos q)].
Proof.
  intros strtod sin cos argv q.
  apply (positional_angle_unchecked strtod [] sin cos); reflexivity.
Defined.

(** *** C9: the driving loop *)

(** C9.  In every arithmetic the loop calls [rk4] exactly while
    [currentTime < finalTime] and [vertPos >= 0].  With [n] the number of
    calls made within the fuel: the record printed by call [i] is the result
    of [i + 1] executions of the body; before each call the condition holds;
    once a printed record has an elapsed time that is not below [finalTime],
    or a negative [vertPos], it is the last one; and a loop that is left
    within the fuel is left with the condition false, and prints the same
    records whatever fuel is added. *)
Theorem drive_steps_exactly_while_cond
  {D : Type} {A : Arith D} (deltaTime finalTime : D)
  (fuel : nat) (c : Config) :
  let n := List.length (drive fuel deltaTime finalTime c) in
  drive fuel deltaTime finalTime c
  = map (fun i => iterBody deltaTime (S i) c) (seq 0 n)
  /\ (forall i, (i < n)%nat ->
        (fst (iterBody deltaTime i c) <? finalTime)%num = true
        /\ (vertPos (snd (iterBody deltaTime i c)) >=? dec 0 1)%num = true)
  /\ (forall i, (i < n)%nat ->
        (fst (iterBody deltaTime (S i) c) <? finalTime)%num = false
        \/ (vertPos (snd (iterBody deltaTime (S i) c)) <? dec 0 1)%num = true ->
        n = S i)
  /\ ((n < fuel)%nat ->
        ((fst (iterBody deltaTime n c) <? finalTime)%num = false
         \/ (vertPos (snd (iterBody deltaTime n c)) >=? dec 0 1)%num = false)
        /\ forall fuel', (fuel <= fuel')%nat ->
             drive fuel' deltaTime finalTime c
             = drive fuel deltaTime finalTime c).
Proof.
  intros n. split; [apply drive_iterBody | ]. split; [ | split].
  - intros i Hi.
    pose proof (drive_cond_before deltaTime finalTime fuel c i Hi) as Hc.
    unfold loopCond in Hc. now apply andb_true_iff in Hc.
  - intros i Hi Hbad.
    destruct (Nat.eq_dec n (S i)) as [E | NE]; [exact E | exfalso].
    assert (Hlt : (S i < n)%nat) by lia.
    pose proof (drive_cond_before deltaTime finalTime fuel c (S i) Hlt) as Hc.
    rewrite (loopCond_false _ _ Hbad) in Hc. discriminate.
  - intros Hlt. split.
    + pose proof (drive_cond_after deltaTime finalTime fuel c Hlt) as Hc.
      fold n in Hc. unfold loopCond in Hc. now apply andb_false_iff in Hc.
    + intros fuel' Hle. now apply drive_fuel_enough.
Qed.

(** A projectile launched from the ground at 1 m/s upwards and forwards,
    with time step 0.1 s and final time 10 s: [rk4] is called three times, the
    third call leaves [vertPos] negative, and the loop is left. *)
Lemma drive_steps_exactly_while_cond_witness :
  let c : Config := (0, mkState 0 0 1 1) in
  List.length (drive 100 0.1 10 c) = 3%nat
  /\ (vertPos (snd (iterBody 0.1 3 c)) <? 0) = true
  /\ ((fst (iterBody 0.1 3 c) <? 10) = false
      \/ (vertPos (snd (iterBody 0.1 3 c)) >=? dec 0 1)%num = false).
Proof.
  intros c.
  assert (L : List.length (drive 100 0.1 10 c) = 3%nat)
    by (vm_compute; reflexivity).
  split; [exact L | ]. split; [vm_compute; reflexivity | ].
  pose proof (drive_steps_exactly_while_cond 0.1 10 100 c) as H.
  cbv zeta in H. rewrite L in H.
  destruct H as (_ & _ & _ & Hexit). apply Hexit. lia.
Defined.

(** *** C10: the horizontal motion *)

(** C10, as amended.  In binary64 the four stage horizontal accelerations
    are 0.  For a finite time step and a horizontal velocity [v] that is not
    NaN, the four stage horizontal velocities are [v] (the first is [v]
    itself, the other three compare equal to [v] and are [v] itself unless
    [v] is a zero, whose sign may change), one call of [rk4] leaves
    [horzVel] unchanged, and [horzPos] becomes
    [horzPos + (v + 2 * (v + v) + v) / 6 * dt], every operation rounded,
    when [v] is not a zero, and is unchanged when [v] is a zero and
    [horzPos] is not NaN.  In exact arithmetic the stage velocities are [v],
    [horzVel] is unchanged and [horzPos] grows by [horzVel * dt]. *)
Theorem rk4_horizontal :
  (forall (state : State float) (dt : float),
      (let '(k1, k2, k3, k4) := rk4Stages state dt in
       horzAcc k1 = 0 /\ horzAcc k2 = 0 /\ horzAcc k3 = 0 /\ horzAcc k4 = 0)
      /\ (is_finite dt = true -> is_nan (horzVel state) = false ->
          (let '(k1, k2, k3, k4) := rk4Stages state dt in
           d_horzVel k1 = horzVel state
           /\ unchanged (d_horzVel k2) (horzVel state)
           /\ unchanged (d_horzVel k3) (horzVel state)
           /\ unchanged (d_horzVel k4) (horzVel state))
          /\ unchanged (horzVel (rk4 state dt)) (horzVel state)
          /\ (is_zero (horzVel state) = false ->
              horzPos (rk4 state dt)
              = horzPos state
                + (horzVel state + 2 * (horzVel state + horzVel state)
                   + horzVel state) / 6 * dt)
          /\ (is_zero (horzVel state) = true ->
              is_nan (horzPos state) = false ->
              unchanged (horzPos (rk4 state dt)) (horzPos state))))
  /\ (forall (state : State R) (dt : R),
        (let '(k1, k2, k3, k4) := rk4Stages state dt in
         (horzAcc k1 = 0 /\ horzAcc k2 = 0 /\ horzAcc k3 = 0 /\ horzAcc k4 = 0)
         /\ (d_horzVel k1 = horzVel state /\ d_horzVel k2 = horzVel state
             /\ d_horzVel k3 = horzVel state /\ d_horzVel k4 = horzVel state))%R
        /\ horzVel (rk4 state dt) = horzVel state
        /\ horzPos (rk4 state dt) = (horzPos state + horzVel state * dt)%R).
Proof.
  split.
  - intros state dt. split.
    + pose proof (rk4Stages_horzAcc state dt) as Hs.
      destruct (rk4Stages state dt) as [[[k1 k2] k3] k4].
      destruct binary64_constants as (_ & _ & Ha & _).
      rewrite Ha in Hs. exact Hs.
    + intros Hdt Hv. split; [ | split; [ | split]].
      * now apply binary64_rk4Stages_horzVel.
      * now apply binary64_rk4_horzVel.
      * intros Hz. rewrite rk4_deltas. cbn [horzPos].
        now rewrite binary64_deltaHorzVel.
      * intros Hz Hp. rewrite rk4_deltas. cbn [horzPos].
        apply add_zero_unchanged; [exact Hp | ].
        apply mul_zero_finite; [ | exact Hdt].
        now apply binary64_deltaHorzVel_zero.
  - intros state dt.
    pose proof (exact_rk4Stages_horizontal state dt) as Hs.
    destruct (rk4Stages state dt) as [[[k1 k2] k3] k4].
    split; [tauto | apply exact_rk4_horizontal].
Qed.

(** The state of the witness of C7, with time step 0.01 s. *)
Lemma rk4_horizontal_witness :
  let state := mkState 1000 5 30 40 in
  unchanged (horzVel (rk4 state 0.01)) (horzVel state)
  /\ horzPos (rk4 state 0.01) = 5 + (40 + 2 * (40 + 40) + 40) / 6 * 0.01.
Proof.
  destruct (proj2 (proj1 rk4_horizontal (mkState 1000 5 30 40) 0.01))
    as (_ & Hv & Hp & _); try (vm_compute; reflexivity).
  split; [exact Hv | ]. apply Hp. vm_compute. reflexivity.
Defined.

(** C10, the claim as stated fails in binary64: with horizontal velocity 0.1
    and time step 1, all four stage velocities are 0.1 and their average
    [(v + 2*(v + v) + v)/6] is computed as 0.1 + 0.4 = 0.5, 0.5 + 0.1 = 0.6
    (the double just below 0.6) and 0.6/6 = 0.099999999999999992 (the double
    just below 0.1), so [horzPos] does not change by [horzVel * dt]. *)
Lemma rk4_horzPos_rounded :
  let state := mkState 0 0 0 0.1 in
  (let '(k1, k2, k3, k4) := rk4Stages state 1 in
   d_horzVel k1 = 0.1 /\ d_horzVel k2 = 0.1
   /\ d_horzVel k3 = 0.1 /\ d_horzVel k4 = 0.1)
  /\ 0.1 + 2 * (0.1 + 0.1) + 0.1 = 0.59999999999999998
  /\ d_horzVel (rk4Deltas state 1) = 0.099999999999999992
  /\ horzPos (rk4 state 1) = 0.099999999999999992
  /\ horzPos state + horzVel state * 1 = 0.1
  /\ (horzPos (rk4 state 1) =? horzPos state + horzVel state * 1) = false.
Proof. vm_compute. repeat split. Qed.

End Claims.

(** ** Further properties of the code *)

Section Coverage.

Local Open Scope float_scope.

(** *** Input acquisition (lines 66-133) *)

(** X1.  A prompt loop is left with the first number that is read and passes
    its check: it returns [v] and leaves [rest] exactly when the outcomes are
    a run of failed or rejected extractions, then [v], which passes the
    check, then [rest]. *)
Theorem prompt_first_accepted {D : Type} (bad : D -> bool)
  (cin rest : list (Extraction D)) (v : D) :
  prompt bad cin = Some (v, rest)
  <-> exists pre, cin = pre ++ Parsed v :: rest
               /\ forallb (rejected bad) pre = true
               /\ bad v = false.
Proof.
  split.
  - induction cin as [ | [x | ] cin IH]; simpl; [discriminate | | ].
    + destruct (bad x) eqn:E.
      * intros H. destruct (IH H) as (pre & -> & Hpre & Hv).
        exists (Parsed x :: pre). simpl. now rewrite E.
      * intros H. injection H as -> ->. now exists [].
    + intros H. destruct (IH H) as (pre & -> & Hpre & Hv).
      now exists (Failed :: pre).
  - intros (pre & -> & Hpre & Hv). rewrite (prompt_skips _ _ _ Hpre).
    simpl. now rewrite Hv.
Qed.

(** X2.  A prompt loop keeps asking exactly as long as every extraction fails
    or is rejected: no bound on the number of attempts, and no other way
    out. *)
Theorem prompt_none_iff_all_rejected {D : Type} (bad : D -> bool)
  (cin : list (Extraction D)) :
  prompt bad cin = None <-> forallb (rejected bad) cin = true.
Proof.
  induction cin as [ | [x | ] cin IH]; simpl; [tauto | | exact IH].
  destruct (bad x); [exact IH | ]. split; discriminate.
Qed.

(** X3.  The dialogue of a prompt loop: the label, then for every failed or
    rejected extraction the line [Error - Invalid input.] and the label
    again; nothing is printed for the number that is accepted, which is the
    one the loop returns. *)
Theorem promptOutput_lines {D : Type} (label : string) (bad : D -> bool)
  (pre rest : list (Extraction D)) (v : D) :
  forallb (rejected bad) pre = true ->
  bad v = false ->
  promptOutput label bad (pre ++ Parsed v :: rest)
  = label :: flat_map (fun _ => [errorLine; label]) pre
  /\ prompt bad (pre ++ Parsed v :: rest) = Some (v, rest).
Proof.
  intros Hpre Hv. split.
  - induction pre as [ | e pre IH]; simpl.
    + now rewrite Hv.
    + simpl in Hpre. apply andb_true_iff in Hpre as [He Hpre].
      rewrite He. now rewrite (IH Hpre).
  - rewrite (prompt_skips _ _ _ Hpre). simpl. now rewrite Hv.
Qed.

(** A failed extraction and the angle 120 before the angle 45. *)
Lemma promptOutput_lines_witness :
  let label := "Enter firing angle in degrees (0-90): "%string in
  promptOutput label badAngle [Failed; Parsed 120; Parsed 45; Parsed 100]
  = [label; errorLine; label; errorLine; label]
  /\ prompt badAngle [Failed; Parsed 120; Parsed 45; Parsed 100]
     = Some (45, [Parsed 100]).
Proof.
  intros label.
  apply (promptOutput_lines label badAngle [Failed; Parsed 120] [Parsed 100] 45);
    vm_compute; reflexivity.
Defined.

(** X4.  The prompting path delivers an angle in [0, 90], a time step that
    is not negative and a final time that is not negative; a time step of 0
    passes.  In binary64 this is what the comparisons of the source say:
    none of [angle < 0], [angle > 90], [dt < 0] and [tf < 0] holds. *)
Theorem interactive_ranges :
  (forall (cin : list (Extraction R)) (q : Params R),
      interactive cin = Some q ->
      (0 <= firingAngle q <= 90 /\ 0 <= deltaTime q /\ 0 <= finalTime q)%R)
  /\ (forall (cin : list (Extraction float)) (q : Params float),
        interactive cin = Some q ->
        (firingAngle q <? 0) = false /\ (90 <? firingAngle q) = false
        /\ (deltaTime q <? 0) = false /\ (finalTime q <? 0) = false)
  /\ (badTime 0%R = false /\ badTime 0 = false).
Proof.
  split; [ | split].
  - intros cin q H. destruct (interactive_checked cin q H) as (Ha & Hdt & Htf).
    now rewrite <- exact_badAngle, <- !exact_badTime.
  - intros cin q H. destruct (interactive_checked cin q H) as (Ha & Hdt & Htf).
    unfold badAngle in Ha. apply orb_false_iff in Ha as [Ha1 Ha2].
    unfold badTime in Hdt, Htf.
    destruct binary64_constants as (_ & _ & _ & _ & _ & _ & _ & E0 & E1 & E90).
    rewrite E1 in Ha1. rewrite E90 in Ha2. rewrite E0 in Hdt, Htf.
    repeat split; assumption.
  - split; [apply exact_badTime; lra | vm_compute; reflexivity].
Qed.

(** The five numbers 0, 45, 100, 0.01 and 10 typed at the prompts. *)
Lemma interactive_ranges_witness :
  let q := mkParams 0 100 45 0.01 10 in
  (firingAngle q <? 0) = false /\ (90 <? firingAngle q) = false
  /\ (deltaTime q <? 0) = false /\ (finalTime q <? 0) = false.
Proof.
  intros q.
  apply (proj1 (proj2 interactive_ranges)
           [Parsed 0; Parsed 45; Parsed 100; Parsed 0.01; Parsed 10] q).
  vm_compute. reflexivity.
Defined.

(** X5.  The two acquisition paths take the numbers in different orders.
    With an argument count other than 6 the arguments are not looked at, and
    five valid numbers from the standard input are altitude, firing angle,
    velocity, time step and final time.  With an argument count of 6 the
    standard input is not read, and the five arguments are altitude,
    velocity, firing angle, time step and final time. *)
Theorem acquire_argument_order {D : Type} {A : Arith D} (strtod : string -> D) :
  (forall (argv : list string) (x1 x2 x3 x4 x5 : D) (rest : list (Extraction D)),
      List.length argv <> 6%nat ->
      badAngle x2 = false -> badTime x4 = false -> badTime x5 = false ->
      acquire strtod argv
        (Parsed x1 :: Parsed x2 :: Parsed x3 :: Parsed x4 :: Parsed x5 :: rest)
      = Some {| initAlt := x1; firingAngle := x2; initVel := x3;
                deltaTime := x4; finalTime := x5 |})
  /\ (forall (prog s1 s2 s3 s4 s5 : string) (cin : list (Extraction D)),
        acquire strtod [prog; s1; s2; s3; s4; s5] cin
        = Some {| initAlt := strtod s1; initVel := strtod s2;
                  firingAngle := strtod s3;
                  deltaTime := strtod s4; finalTime := strtod s5 |}).
Proof.
  split.
  - intros argv x1 x2 x3 x4 x5 rest Hargc H2 H4 H5.
    unfold acquire. apply Nat.eqb_neq in Hargc. rewrite Hargc.
    now apply interactive_valid.
  - reflexivity.
Qed.

(** The numbers 0, 45, 100, 0.01 and 10 typed in this order after a call
    with three arguments: 45 is the angle and 100 the velocity. *)
Lemma acquire_argument_order_witness :
  acquire (fun _ => 0) ["trajectory"; "0"; "100"; "45"]%string
    [Parsed 0; Parsed 45; Parsed 100; Parsed 0.01; Parsed 10]
  = Some {| initAlt := 0; firingAngle := 45; initVel := 100;
            deltaTime := 0.01; finalTime := 10 |}.
Proof.
  apply (proj1 (acquire_argument_order (fun _ => 0))
           ["trajectory"; "0"; "100"; "45"]%string 0 45 100 0.01 10 []);
    [simpl; lia | vm_compute; reflexivity ..].
Defined.

(** *** The driving loop (lines 143-159) *)

(** X6.  With a final time that is not above 0, or an initial altitude below
    0, [rk4] is never called and no record is printed, in every
    arithmetic. *)
Theorem simulate_no_record {D : Type} {A : Arith D} (sin cos : D -> D)
  (fuel : nat) (q : Params D) :
  (dec 0 1 <? finalTime q)%num = false \/ (initAlt q <? dec 0 1)%num = true ->
  simulate sin cos fuel q = [].
Proof.
  intros H. unfold simulate. apply drive_stop, loopCond_false.
  cbn [fst snd]. unfold initialState. cbn [vertPos]. exact H.
Qed.

(** A launch from 5 m below the ground. *)
Lemma simulate_no_record_witness :
  simulate (fun _ => 0) (fun _ => 1) 100 (mkParams (-5) 100 0 0.01 10) = [].
Proof.
  apply (simulate_no_record (fun _ => 0) (fun _ => 1) 100
           (mkParams (-5) 100 0 0.01 10)).
  right. vm_compute. reflexivity.
Defined.

(** X10.  In binary64 a time step of 0, which the prompt accepts, never ends
    the loop: with a final time above 0 and a state whose fields are
    ordinary numbers, whose altitude is not negative and whose averaged
    derivatives are finite, every call of [rk4] returns the state as it is
    and the elapsed time stays 0, so the loop prints the same record whatever
    the fuel. *)
Theorem binary64_zero_dt_never_ends (tf : float) (p : State float)
  (fuel : nat) :
  (0 <? tf) = true -> (0 <=? vertPos p) = true ->
  ordinary (vertPos p) = true ->
  ordinary (horzPos p) = true ->
  ordinary (vertVel p) = true ->
  ordinary (horzVel p) = true ->
  is_finite (d_vertVel (rk4Deltas p 0)) = true ->
  is_finite (vertAcc (rk4Deltas p 0)) = true ->
  is_finite (d_horzVel (rk4Deltas p 0)) = true ->
  drive fuel 0 tf (0, p) = repeat (0, p) fuel.
Proof.
  intros Ht Hp Ovp Ohp Ovv Ohv Fvv Fva Fhv.
  assert (Hc : loopCond tf (0, p) = true).
  { unfold loopCond. cbn [fst snd ltb leb Binary64].
    destruct binary64_constants as (_ & _ & _ & _ & _ & _ & _ & _ & -> & _).
    now rewrite Ht, Hp. }
  assert (Hb : loopBody 0 (0, p) = (0, p)).
  { unfold loopBody. cbn [fst snd].
    rewrite binary64_rk4_zero_dt_same by assumption. reflexivity. }
  induction fuel as [ | fuel IH]; [reflexivity | ].
  simpl. rewrite Hc, Hb. f_equal. exact IH.
Qed.

(** A launch from the ground at 100 m/s and 45 degrees, with the time step 0
    that the prompt accepts. *)
Lemma binary64_zero_dt_never_ends_witness :
  let p := mkState 0 0 70.710678118654755 70.710678118654755 in
  drive 4 0 10 (0, p) = [(0, p); (0, p); (0, p); (0, p)].
Proof.
  intros p. apply (binary64_zero_dt_never_ends 10 p 4);
    vm_compute; reflexivity.
Defined.

(** *** The horizontal motion over a run (lines 141, 148-159, 226-235) *)

(** X13.  In binary64, with a finite time step and a start velocity
    [initVel * cos angle] that is not NaN, every record of a run has the
    horizontal velocity of the start: the calls of [rk4] never change it,
    whatever the vertical motion does. *)
Theorem binary64_run_horzVel (sin cos : float -> float) (fuel : nat)
  (q : Params float) (t : float) (p : State float) :
  is_finite (deltaTime q) = true ->
  is_nan (initVel q * cos (firingAngle q * deg2rad)) = false ->
  In (t, p) (simulate sin cos fuel q) ->
  unchanged (horzVel p) (initVel q * cos (firingAngle q * deg2rad)).
Proof.
  intros Hdt Hv H. unfold simulate in H.
  destruct (drive_In _ _ _ _ _ H) as (i & _ & E & _).
  change p with (snd (t, p)). rewrite E.
  exact (binary64_iterBody_horzVel (deltaTime q) (S i)
           (dec 0 1, initialState sin cos q) Hdt Hv).
Qed.

(** The second record of a horizontal shot at 10 m/s from 100 m up, with
    time step 0.1: sine 0 and cosine 1 at the angle 0. *)
Lemma binary64_run_horzVel_witness :
  let q := mkParams 100 10 0 0.1 1 in
  let r := iterBody 0.1 2 (0, initialState (fun _ => 0) (fun _ => 1) q) in
  unchanged (horzVel (snd r)) 10.
Proof.
  intros q r.
  apply (binary64_run_horzVel (fun _ => 0) (fun _ => 1) 5 q (fst r) (snd r)).
  - vm_compute. reflexivity.
  - vm_compute. reflexivity.
  - right. left. vm_compute. reflexivity.
Defined.

(** *** The two axes (lines 166-236) *)

(** X14.  In every arithmetic the two axes do not influence each other in a
    step: the altitude and the vertical velocity after [rk4] depend on the
    altitude, the vertical velocity and the time step only, and the
    horizontal position and velocity after [rk4] on the horizontal position,
    the horizontal velocity and the time step only. *)
Theorem rk4_axes_independent {D : Type} {A : Arith D} (s s' : State D)
  (dt : D) :
  (vertPos s = vertPos s' -> vertVel s = vertVel s' ->
   vertPos (rk4 s dt) = vertPos (rk4 s' dt)
   /\ vertVel (rk4 s dt) = vertVel (rk4 s' dt))
  /\ (horzPos s = horzPos s' -> horzVel s = horzVel s' ->
      horzPos (rk4 s dt) = horzPos (rk4 s' dt)
      /\ horzVel (rk4 s dt) = horzVel (rk4 s' dt)).
Proof.
  destruct s as [y x vy vx], s' as [y' x' vy' vx'].
  cbn [vertPos vertVel horzPos horzVel].
  split; intros <- <-; split; reflexivity.
Qed.

(** Two states with the same vertical and different horizontal fields. *)
Lemma rk4_axes_independent_witness :
  vertPos (rk4 (mkState 1000 5 30 40) 0.01)
  = vertPos (rk4 (mkState 1000 0 30 700) 0.01)
  /\ vertVel (rk4 (mkState 1000 5 30 40) 0.01)
     = vertVel (rk4 (mkState 1000 0 30 700) 0.01).
Proof.
  apply (proj1 (rk4_axes_independent
                  (mkState 1000 5 30 40) (mkState 1000 0 30 700) 0.01));
    reflexivity.
Defined.

(** X15.  In every arithmetic the horizontal fields have no influence on a
    run: two starts with the same elapsed time, altitude and vertical
    velocity give the same number of records, with the same times, altitudes
    and vertical velocities. *)
Theorem drive_vertical_independent {D : Type} {A : Arith D}
  (fuel : nat) (deltaTime finalTime : D) (c c' : Config) :
  fst c = fst c' ->
  vertPos (snd c) = vertPos (snd c') ->
  vertVel (snd c) = vertVel (snd c') ->
  map (fun r => (fst r, vertPos (snd r), vertVel (snd r)))
      (drive fuel deltaTime finalTime c)
  = map (fun r => (fst r, vertPos (snd r), vertVel (snd r)))
        (drive fuel deltaTime finalTime c')
  /\ List.length (drive fuel deltaTime finalTime c)
     = List.length (drive fuel deltaTime finalTime c').
Proof.
  intros Ht Hy Hvy.
  assert (H : map (fun r => (fst r, vertPos (snd r), vertVel (snd r)))
                (drive fuel deltaTime finalTime c)
              = map (fun r => (fst r, vertPos (snd r), vertVel (snd r)))
                  (drive fuel deltaTime finalTime c')).
  { revert c c' Ht Hy Hvy. induction fuel as [ | fuel IH];
      intros c c' Ht Hy Hvy; [reflexivity | ].
    simpl. unfold loopCond. rewrite Ht, Hy.
    destruct ((fst c' <? finalTime)%num && (vertPos (snd c') >=? dec 0 1)%num);
      [ | reflexivity].
    destruct (rk4_steps_vertical (snd c) (snd c') deltaTime Hy Hvy) as [Ey Ev].
    cbn [map]. f_equal.
    - unfold loopBody. cbn [fst snd]. now rewrite Ht, Ey, Ev.
    - apply IH; unfold loopBody; cbn [fst snd]; congruence. }
  split; [exact H | ].
  apply (f_equal (@List.length _)) in H. now rewrite !length_map in H.
Qed.

(** The launch of the witness of C9, and the same launch with a horizontal
    velocity of 50 m/s from 7 m further on. *)
Lemma drive_vertical_independent_witness :
  List.length (drive 100 0.1 10 (0, mkState 0 0 1 1))
  = List.length (drive 100 0.1 10 (0, mkState 0 7 1 50)).
Proof.
  apply (drive_vertical_independent 100 0.1 10
           (0, mkState 0 0 1 1) (0, mkState 0 7 1 50));
    reflexivity.
Defined.

(** *** NaN in the driving loop (lines 148-152) *)

(** X16.  In binary64 a NaN ends the loop, since every comparison with NaN
    is false: with a NaN final time or a NaN initial altitude no record is
    printed; a NaN altitude or elapsed time in the loop variables stops the
    loop; and with a NaN time step exactly one record is printed, whose time
    and state are all NaN. *)
Theorem binary64_nan_in_driver :
  (forall (sin cos : float -> float) (fuel : nat) (q : Params float),
      is_nan (finalTime q) = true \/ is_nan (initAlt q) = true ->
      simulate sin cos fuel q = [])
  /\ (forall (fuel : nat) (dt tf : float) (c : Config),
        is_nan (vertPos (snd c)) = true \/ is_nan (fst c) = true ->
        drive fuel dt tf c = [])
  /\ (forall (fuel : nat) (dt tf : float) (c : Config),
        is_nan dt = true -> loopCond tf c = true ->
        drive (S fuel) dt tf c = [(nan, mkState nan nan nan nan)]).
Proof.
  split; [ | split; [exact binary64_drive_nan | ]].
  - intros sin cos fuel q [H | H]; unfold simulate.
    + apply drive_stop. unfold loopCond. cbn [ltb leb Binary64 fst].
      apply is_nan_eq in H. now rewrite H, ltb_nan_r.
    + apply binary64_drive_nan. left. exact H.
  - intros fuel dt tf c Hdt Hc. apply is_nan_eq in Hdt. subst dt.
    rewrite (drive_step _ _ _ _ Hc).
    assert (E : loopBody nan c = (nan, mkState nan nan nan nan)).
    { unfold loopBody. rewrite rk4_deltas. cbn [add mul Binary64].
      now rewrite !mul_nan_r, !add_nan_r. }
    rewrite E. f_equal. apply binary64_drive_nan. right. reflexivity.
Qed.

(** A launch from the ground with a NaN time step. *)
Lemma binary64_nan_in_driver_witness :
  drive 100 nan 10 (0, mkState 0 0 1 1) = [(nan, mkState nan nan nan nan)].
Proof.
  apply (proj2 (proj2 binary64_nan_in_driver) 99%nat nan 10 (0, mkState 0 0 1 1));
    vm_compute; reflexivity.
Defined.

(** *** The vertical acceleration in binary64 (lines 166-174) *)

(** X17.  In binary64 [computeVertAcc] returns NaN exactly when the altitude
    is NaN: no finite or infinite altitude gives NaN, not even [-re], where
    the division is by zero. *)
Theorem binary64_computeVertAcc_nan (state : State float) :
  is_nan (computeVertAcc state) = is_nan (vertPos state).
Proof.
  destruct (is_nan (vertPos state)) eqn:E.
  - apply is_nan_iff, binary64_computeVertAcc_of_nan, E.
  - apply is_nan_false_iff.
    apply (SFsigned_not_nan true), binary64_computeVertAcc_signed, E.
Qed.

(** X18.  In binary64 [computeVertAcc] is never above 0, whatever the state:
    the two factors [re / (re + h)] have the same sign, so the product has
    the sign of [g].  It compares below or equal to 0 unless the altitude is
    NaN. *)
Theorem binary64_computeVertAcc_never_positive (state : State float) :
  (0 <? computeVertAcc state) = false
  /\ (computeVertAcc state <=? 0) = negb (is_nan (vertPos state)).
Proof.
  rewrite ltb_spec, leb_spec. unfold SFltb, SFleb.
  change (Prim2SF 0) with (S754_zero false).
  destruct (is_nan (vertPos state)) eqn:E.
  - rewrite (binary64_computeVertAcc_of_nan state E). split; reflexivity.
  - pose proof (binary64_computeVertAcc_signed state E) as H.
    destruct (Prim2SF (computeVertAcc state)) as [s | s | | s m e];
      simpl in H; try tauto; subst s; split; reflexivity.
Qed.

(** X19.  The edges of [computeVertAcc] in binary64.  Whenever the
    denominator [re + h] is a zero, which it is at the altitude [-re], the
    quotient is an infinity and the result is [-infinity], with no error; at
    an infinite altitude of either sign the quotient is a zero and the result
    is [-0.0]. *)
Theorem binary64_computeVertAcc_singular (state : State float) :
  (is_zero (re + vertPos state) = true -> computeVertAcc state = neg_infinity)
  /\ (is_infinity (vertPos state) = true -> computeVertAcc state = (-0)).
Proof.
  split; intros H; apply Prim2SF_inj; rewrite binary64_computeVertAcc_SF.
  - apply is_zero_true in H. rewrite add_spec in H. unfold SF64add in H.
    destruct binary64_re_g as (mr & er & mg & eg & Ere & Eg).
    rewrite Eg. rewrite Ere in H |- *.
    destruct (SFadd prec emax (S754_finite false mr er) (Prim2SF (vertPos state)))
      as [s | s | | s m e]; simpl in H; try tauto.
    now destruct s.
  - destruct (is_infinity_true _ H) as (s & E). rewrite E.
    destruct binary64_re_g as (mr & er & mg & eg & -> & ->).
    now destruct s.
Qed.

(** The altitude [-re], the centre of the Earth. *)
Lemma binary64_computeVertAcc_singular_witness :
  computeVertAcc (mkState (- re) 0 0 0) = neg_infinity.
Proof.
  apply (proj1 (binary64_computeVertAcc_singular (mkState (- re) 0 0 0))).
  vm_compute. reflexivity.
Defined.

End Coverage.
